(** * PyAbel [abel/tools/center.py]: locating and setting the image origin

    A shallow embedding of the centering routines of PyAbel
    ([find_origin], [center_image], [set_center], [axis_slices],
    [find_origin_by_slice] and the trivial estimators) and the properties
    of their shape and content behaviour.

    Conventions of the embedding.
    - Python integers are [Z]; [//] and [%] are [Z.div] and [Z.modulo]
      (both round towards minus infinity, as in Python).
    - Python floats (origin coordinates, sub-pixel parts, minimizer output)
      are rationals [Q]; rounding error of float arithmetic is not modelled.
    - A 2D [numpy] array is a list of rows together with its column count
      (so that a [(0, n)] array keeps its second dimension).
    - Exceptions are values of [exn], carried by the error monad [result].
    - The numerical collaborators ([scipy.ndimage.shift],
      [scipy.optimize.minimize], [scipy.ndimage.center_of_mass],
      [fit_gaussian], [np.convolve]/[np.argmax]) are the fields of the
      class [Numerics]; nothing is assumed about them except where a
      theorem says so. *)

From Stdlib Require Import String ZArith QArith Qround List Bool Lia.
Import ListNotations.

Local Open Scope Z_scope.

(** ** Python values and exceptions *)

(** The object returned by [scipy.optimize.minimize]: the success flag, the
    minimizing scalar [fit['x']] and the diagnostic message. *)
Record OptimizeResult := mkOptimizeResult {
  success : bool;
  x : Q;
  message : string
}.

Inductive exn :=
| ValueError (msg : string)
| KeyError (key : string)
| RuntimeError (msg : string) (fit : OptimizeResult).

Inductive result (A : Type) :=
| Ok (a : A)
| Raise (e : exn).
Arguments Ok {A} a.
Arguments Raise {A} e.

Definition bind {A B} (m : result A) (k : A -> result B) : result B :=
  match m with
  | Ok a => k a
  | Raise e => Raise e
  end.

Notation "x <- m ;; k" := (bind m (fun x => k))
  (at level 61, m at next level, right associativity).

(** [int(q)]: truncation towards zero. *)
Definition py_int (q : Q) : Z := Z.quot (Qnum q) (Zpos (Qden q)).

(** [q < 0] on numbers. *)
Definition Qneg_bool (q : Q) : bool := Qnum q <? 0.

(** [subpixel[a] == 0] / truth value of a float. *)
Definition Qzero_bool (q : Q) : bool := Qnum q =? 0.

(** [int(round(q))] (Python 3: ties go to the even neighbour). *)
Definition py_round (q : Q) : Z :=
  let f := Qfloor q in
  let twice := 2 * (Qnum q - f * Zpos (Qden q)) in
  match twice ?= Zpos (Qden q) with
  | Lt => f
  | Gt => f + 1
  | Eq => if Z.even f then f else f + 1
  end.

(** ** Slices *)

(** [slice(start, stop)] with unit step; [None] is the open end. *)
Record slice := Slice { start : option Z; stop : option Z }.

Definition slice_all : slice := Slice None None.                    (* [:] *)
Definition slice_to (b : Z) : slice := Slice None (Some b).         (* [:b] *)
Definition slice_from (a : Z) : slice := Slice (Some a) None.       (* [a:] *)
Definition slice_of (a b : Z) : slice := Slice (Some a) (Some b).   (* [a:b] *)

(** Python's normalisation of a slice bound against a length [n]: a negative
    bound counts from the end, and everything is clipped into [0..n]. *)
Definition clip_index (n i : Z) : Z :=
  if i <? 0 then Z.max 0 (i + n) else Z.min i n.

Definition slice_lo (s : slice) (n : nat) : nat :=
  match start s with
  | None => 0%nat
  | Some i => Z.to_nat (clip_index (Z.of_nat n) i)
  end.

Definition slice_hi (s : slice) (n : nat) : nat :=
  match stop s with
  | None => n
  | Some i => Z.to_nat (clip_index (Z.of_nat n) i)
  end.

Definition slice_len (s : slice) (n : nat) : nat :=
  (slice_hi s n - slice_lo s n)%nat.

(** [l[s]] on a sequence. *)
Definition take {A} (s : slice) (l : list A) : list A :=
  firstn (slice_len s (length l)) (skipn (slice_lo s (length l)) l).

(** [l[lo:lo+len(v)] = v] on a sequence, for a region inside [l]. *)
Definition write {A} (lo : nat) (v l : list A) : list A :=
  firstn lo l ++ v ++ skipn (lo + length v) l.

Fixpoint zip_with {A B C} (f : A -> B -> C) (l : list A) (m : list B) : list C :=
  match l, m with
  | a :: l', b :: m' => f a b :: zip_with f l' m'
  | _, _ => []
  end.

(** ** 2D arrays *)

(** The element type of an image, with the zero used for padding and the
    addition used for sums along an axis. *)
Class Pixel (T : Type) := {
  zero : T;
  add : T -> T -> T
}.

(** A 2D array: its rows, and its number of columns ([shape[1]]). *)
Record image (T : Type) := Image {
  rows : list (list T);
  ncols : nat
}.
Arguments Image {T} rows ncols.
Arguments rows {T} i.
Arguments ncols {T} i.

(** Whether an array shares the caller's buffer (a view of the input) or owns
    a buffer of its own. *)
Inductive buffer := InputBuffer | FreshBuffer.

Record ndarray (T : Type) := NdArray {
  val : image T;
  buf : buffer
}.
Arguments NdArray {T} val buf.
Arguments val {T} n.
Arguments buf {T} n.

Section Arrays.
Context {T : Type} `{Pixel T}.

Definition nrows (a : image T) : nat := length (rows a).

(** [a.shape] *)
Definition shape (a : image T) : nat * nat := (nrows a, ncols a).

(** Every row has [ncols a] entries. *)
Definition wf (a : image T) : bool :=
  forallb (fun r => Nat.eqb (length r) (ncols a)) (rows a).

(** [a[i, j]], for indices inside the array ([zero] stands for "no such
    cell" outside). *)
Definition px (a : image T) (i j : nat) : T := nth j (nth i (rows a) []) zero.

(** Basic indexing [a[s0, s1]]. *)
Definition getitem (a : image T) (s : slice * slice) : image T :=
  Image (map (take (snd s)) (take (fst s) (rows a)))
        (slice_len (snd s) (ncols a)).

(** [np.zeros_like(a)] *)
Definition zeros_like (a : image T) : image T :=
  Image (repeat (repeat zero (ncols a)) (nrows a)) (ncols a).

(** Zero padding by [b0]/[a0] rows before/after and [b1]/[a1] columns. *)
Definition pad_zeros (b0 a0 b1 a1 : nat) (a : image T) : image T :=
  let w := (b1 + ncols a + a1)%nat in
  Image (repeat (repeat zero w) b0
         ++ map (fun r => repeat zero b1 ++ r ++ repeat zero a1) (rows a)
         ++ repeat (repeat zero w) a0)
        w.

(** [np.pad(a, pad, 'constant')]; negative widths are refused. *)
Definition np_pad (a : image T) (pad : (Z * Z) * (Z * Z)) : result (image T) :=
  let '((b0, a0), (b1, a1)) := pad in
  if (b0 <? 0) || (a0 <? 0) || (b1 <? 0) || (a1 <? 0)
  then Raise (ValueError "index can't contain negative values")
  else Ok (pad_zeros (Z.to_nat b0) (Z.to_nat a0) (Z.to_nat b1) (Z.to_nat a1) a).

(** Broadcasting of one dimension of a value to a target length [t]: equal
    lengths, or a value of length one repeated. *)
Definition can_broadcast (s t : nat) : bool := Nat.eqb s t || Nat.eqb s 1.

Definition stretch {A} (t : nat) (l : list A) : list A :=
  if Nat.eqb (length l) t then l
  else match l with
       | [a] => repeat a t
       | _ => l
       end.

(** [out[d0, d1] = v], with numpy's broadcasting rule and its error. *)
Definition setitem (out : image T) (d : slice * slice) (v : image T)
  : result (image T) :=
  let lo0 := slice_lo (fst d) (nrows out) in
  let t0 := slice_len (fst d) (nrows out) in
  let lo1 := slice_lo (snd d) (ncols out) in
  let t1 := slice_len (snd d) (ncols out) in
  if can_broadcast (nrows v) t0 && can_broadcast (ncols v) t1 then
    let vrows := map (stretch t1) (stretch t0 (rows v)) in
    let old := firstn t0 (skipn lo0 (rows out)) in
    Ok (Image (write lo0 (zip_with (write lo1) vrows old) (rows out))
              (ncols out))
  else Raise (ValueError "could not broadcast input array").

(** [a.sum(axis=1)]: one sum per row. *)
Definition sum_axis1 (a : image T) : list T :=
  map (fun r => fold_left add r zero) (rows a).

(** [a.sum(axis=0)]: one sum per column. *)
Definition sum_axis0 (a : image T) : list T :=
  fold_left (zip_with add) (rows a) (repeat zero (ncols a)).

(** Views and copies. *)
Definition input_array (a : image T) : ndarray T := NdArray a InputBuffer.
Definition fresh (a : image T) : ndarray T := NdArray a FreshBuffer.
Definition view (n : ndarray T) (s : slice * slice) : ndarray T :=
  NdArray (getitem (val n) s) (buf n).
Definition copy (n : ndarray T) : ndarray T := fresh (val n).

End Arrays.

(** ** Numerical collaborators *)

Class Numerics (T : Type) := {
  (** [scipy.ndimage.shift(a, delta, order=order)] *)
  shift : image T -> Q * Q -> nat -> image T;
  (** [minimize(_align, [0.1], args=(A, B), bounds=((-50, 50),), tol=0.1)] *)
  minimize_align : list T -> list T -> OptimizeResult;
  (** [scipy.ndimage.center_of_mass(IM)] *)
  center_of_mass : image T -> Q * Q;
  (** [fit_gaussian(p)[1]] *)
  fit_gaussian_center : list T -> Q;
  (** [np.argmax(np.convolve(p, p, mode='full'))] *)
  argmax_autoconvolution : list T -> nat
}.

(** The contract of the shift collaborator used here: the result has the
    shape of its argument. *)
Definition shift_keeps_shape {T} `{Pixel T} `{Numerics T} : Prop :=
  forall (a : image T) (delta : Q * Q) (order : nat),
    wf a = true ->
    wf (shift a delta order) = true /\ shape (shift a delta order) = shape a.

(** ** [set_center] *)

(** What the preprocessing loop of [set_center] leaves for an axis whose
    origin coordinate is not [None]: [origin[a]] (whole pixels),
    [subpixel[a]] and the complement [origin_[a]]. *)
Record axis_origin := AxisOrigin {
  o : Z;
  sub : Q;
  o_ : Z
}.

Definition quote : string := String (Ascii.ascii_of_nat 34) EmptyString.

Section SetCenter.
Context {T : Type} `{Pixel T} `{Numerics T}.

(** [center_of(a)]: [(np.array(a.shape) - 1) // 2] *)
Definition center_of (a : image T) : Z * Z :=
  ((Z.of_nat (nrows a) - 1) / 2, (Z.of_nat (ncols a) - 1) / 2).

(** Body of the loop [for a in [0, 1]] that preprocesses the origin. *)
Definition preprocess (n : nat) (order : nat) (c : option Q)
  : option axis_origin :=
  match c with
  | None => None
  | Some q =>
      (* to absolute coordinates *)
      let q := if Qneg_bool q then (q + inject_Z (Z.of_nat n))%Q else q in
      if negb (Nat.eqb order 0) then
        (* split integer and fractional parts *)
        let i := py_int q in
        Some (AxisOrigin i (q - inject_Z i)%Q (Z.of_nat n - 1 - i))
      else
        (* round to whole pixels *)
        let i := py_round q in
        Some (AxisOrigin i 0%Q (Z.of_nat n - 1 - i))
  end.

(** [subpixel[a]], which stays [0] for a [None] coordinate. *)
Definition subpixel_of (p : option axis_origin) : Q :=
  match p with
  | Some ao => sub ao
  | None => 0%Q
  end.

(** The order actually used: [if np.all(subpixel == 0): order = 0]. *)
Definition effective_order (p0 p1 : option axis_origin) (order : nat) : nat :=
  if Qzero_bool (subpixel_of p0) && Qzero_bool (subpixel_of p1)
  then 0%nat else order.

(** Membership of an axis in [axes] once the axes with a [None] coordinate
    are discarded, together with its preprocessed origin. *)
Definition active (in_axes : bool) (p : option axis_origin)
  : option axis_origin :=
  if in_axes then p else None.

(** [delta[a]] of the fractional shift under [maintain_size]. *)
Definition fractional_delta (c : Z) (act : option axis_origin) : Q :=
  match act with
  | Some ao => (inject_Z c - (inject_Z (o ao) + sub ao))%Q
  | None => 0%Q
  end.

(** Source and destination regions of the whole-pixel shift on one axis. *)
Definition whole_pixel_regions (n : nat) (c : Z) (act : option axis_origin)
  : slice * slice :=
  match act with
  | Some ao =>
      let delta := c - o ao in
      (* gaps for positive and negative shifts wrt edges *)
      let dpos := Z.max 0 delta in
      let dneg := Z.max 0 (- delta) in
      (slice_of dneg (Z.of_nat n - dpos), slice_of dpos (Z.of_nat n - dneg))
  | None => (slice_all, slice_all)
  end.

(** After the sub-pixel shift: the cut on one axis and the adjusted
    origin (loop [for a in [0, 1]] under [if order]). *)
Definition defraction (crop : string) (p : option axis_origin)
  : slice * option axis_origin :=
  match p with
  | Some ao =>
      if negb (Qzero_bool (sub ao)) then
        if (crop =? "valid_region")%string
        then (slice_of 1 (-1), Some (AxisOrigin (o ao) (sub ao) (o_ ao - 1)))
        else (slice_all, Some (AxisOrigin (o ao + 1) (sub ao) (o_ ao)))
      else (slice_from 1, p)
  | None => (slice_from 1, None)
  end.

(** [src[a]] under [valid_region]. *)
Definition valid_region_slice (act : option axis_origin) : slice :=
  match act with
  | Some ao =>
      (* distance to the closest edge *)
      let d := Z.min (o ao) (o_ ao) in
      slice_of (o ao - d) (o ao + d + 1)
  | None => slice_all
  end.

(** [pad[a]] under [maintain_data]. *)
Definition maintain_data_pad (act : option axis_origin) : Z * Z :=
  match act with
  | Some ao =>
      (* distance to the farthest edge *)
      let d := Z.max (o ao) (o_ ao) in
      (d - o ao, d - o_ ao)
  | None => (0, 0)
  end.

Definition set_center (data : image T) (origin : option Q * option Q)
    (crop : string) (axes : bool * bool) (order : nat)
  : result (ndarray T) :=
  let shape0 := nrows data in
  let shape1 := ncols data in
  let center := center_of data in
  (* remove axes with "None" coordinates, preprocess origin *)
  let p0 := preprocess shape0 order (fst origin) in
  let p1 := preprocess shape1 order (snd origin) in
  let subpixel := (subpixel_of p0, subpixel_of p1) in
  (* don't interpolate for whole-pixels shifts *)
  let order := effective_order p0 p1 order in
  if (crop =? "maintain_size")%string then
    if negb (Nat.eqb order 0) then
      (* fractional shift *)
      let delta := (fractional_delta (fst center) (active (fst axes) p0),
                    fractional_delta (snd center) (active (snd axes) p1)) in
      Ok (view (fresh (shift (pad_zeros 1 1 1 1 data) delta order))
               (slice_of 1 (-1), slice_of 1 (-1)))
    else
      (* whole-pixel shift *)
      let r0 := whole_pixel_regions shape0 (fst center) (active (fst axes) p0) in
      let r1 := whole_pixel_regions shape1 (snd center) (active (snd axes) p1) in
      let src := (fst r0, fst r1) in
      let dst := (snd r0, snd r1) in
      out <- setitem (zeros_like data) dst (getitem data src) ;;
      Ok (fresh out)
  else
    (* for other crop options, first do subpixel shift *)
    let '(data, p0, p1) :=
      if negb (Nat.eqb order 0) then
        let shifted :=
          view (fresh (shift (pad_zeros 1 1 1 1 data)
                             (- fst subpixel, - snd subpixel)%Q order))
               (slice_to (-1), slice_to (-1)) in
        (* shift origin or cut unused pixels *)
        let c0 := defraction crop p0 in
        let c1 := defraction crop p1 in
        (view shifted (fst c0, fst c1), snd c0, snd c1)
      else (input_array data, p0, p1) in
    if (crop =? "valid_region")%string then
      let src := (valid_region_slice (active (fst axes) p0),
                  valid_region_slice (active (snd axes) p1)) in
      Ok (copy (view data src))
    else if (crop =? "maintain_data")%string then
      let pad := (maintain_data_pad (active (fst axes) p0),
                  maintain_data_pad (active (snd axes) p1)) in
      out <- np_pad (val data) pad ;;
      Ok (fresh out)
    else
      Raise (ValueError ("Invalid crop option " ++ quote ++ crop ++ quote ++ ".")).

End SetCenter.

(** ** Origin estimators *)

(** Keyword options understood by the estimators ([**kwargs]); the defaults
    are those of the Python signatures. *)
Record kwargs := Kwargs {
  round_output : bool;
  slice_width : Z;
  radial_range : Z * Z;
  axis : list Z
}.

Definition default_kwargs : kwargs := Kwargs false 10 (0, -1) [0; 1].

Section Estimators.
Context {T : Type} `{Pixel T} `{Numerics T}.

Definition find_origin_by_center_of_image (data : image T) : Q * Q :=
  (inject_Z (Z.of_nat (nrows data) / 2), inject_Z (Z.of_nat (ncols data) / 2)).

Definition find_origin_by_center_of_mass (IM : image T) (round_output : bool)
  : Q * Q :=
  let origin := center_of_mass IM in
  if round_output
  then (inject_Z (py_round (fst origin)), inject_Z (py_round (snd origin)))
  else origin.

Definition find_origin_by_convolution (IM : image T) : Q * Q :=
  (* projection along axis=0 of image (rows) *)
  let QL_raw0 := sum_axis1 IM in
  (* projection along axis=1 of image (cols) *)
  let QL_raw1 := sum_axis0 IM in
  ((inject_Z (Z.of_nat (argmax_autoconvolution QL_raw0)) / 2)%Q,
   (inject_Z (Z.of_nat (argmax_autoconvolution QL_raw1)) / 2)%Q).

Definition find_origin_by_gaussian_fit (IM : image T) (round_output : bool)
  : Q * Q :=
  let xs := sum_axis0 IM in
  let ys := sum_axis1 IM in
  let xc := fit_gaussian_center xs in
  let yc := fit_gaussian_center ys in
  if round_output
  then (inject_Z (py_round yc), inject_Z (py_round xc))
  else (yc, xc).

(** [axis_slices]: the four profiles [top, bottom, left, right]. *)
Definition axis_slices (IM : image T) (radial_range : Z * Z) (slice_width : Z)
  : list T * list T * list T * list T :=
  let rows := Z.of_nat (nrows IM) in
  let cols := Z.of_nat (ncols IM) in
  let r2 := rows / 2 + rows mod 2 in
  let c2 := cols / 2 + cols mod 2 in
  let sw2 := slice_width / 2 in
  let '(rmin, rmax) := radial_range in
  (* vertical slice *)
  let top := sum_axis1 (getitem IM (slice_to r2, slice_of (c2 - sw2) (c2 + sw2))) in
  let bottom :=
    sum_axis1 (getitem IM (slice_from (r2 - rows mod 2),
                           slice_of (c2 - sw2) (c2 + sw2))) in
  (* horizontal slice *)
  let left_ := sum_axis0 (getitem IM (slice_of (r2 - sw2) (r2 + sw2), slice_to c2)) in
  let right_ :=
    sum_axis0 (getitem IM (slice_of (r2 - sw2) (r2 + sw2),
                           slice_from (c2 - cols mod 2))) in
  (take (slice_of rmin rmax) (rev top), take (slice_of rmin rmax) bottom,
   take (slice_of rmin rmax) (rev left_), take (slice_of rmin rmax) right_).

(** One of the two blocks [if a in axis: fit = minimize(...) ...] of
    [find_origin_by_slice]: the offset of the axis, or the error. *)
Definition slice_offset (a : Z) (axis : list Z) (msg : string)
    (sliceA sliceB : list T) : result Q :=
  if existsb (Z.eqb a) axis then
    let fit := minimize_align sliceA sliceB in
    if success fit
    then Ok (- x fit / 2)%Q   (* x1/2 for image shift *)
    else Raise (RuntimeError msg fit)
  else Ok 0%Q.

Definition find_origin_by_slice (IM : image T) (slice_width : Z)
    (radial_range : Z * Z) (axis : list Z) : result (Q * Q) :=
  let rows := Z.of_nat (nrows IM) in
  let cols := Z.of_nat (ncols IM) in
  let r2 := rows / 2 in
  let c2 := cols / 2 in
  let '(top, bottom, left_, right_) := axis_slices IM radial_range slice_width in
  (* vertical axis *)
  off0 <- slice_offset 0 axis "fit failure: axis = 0, zero shift set" top bottom ;;
  (* horizontal axis *)
  off1 <- slice_offset 1 axis "fit failure: axis = 1, zero shift set" left_ right_ ;;
  Ok (inject_Z r2 - off0, inject_Z c2 - off1)%Q.

(** The registry [func_method]. *)
Definition func_method : list (string * (image T -> kwargs -> result (Q * Q))) :=
  [ ("image_center"%string, fun IM _ => Ok (find_origin_by_center_of_image IM));
    ("com"%string, fun IM kw => Ok (find_origin_by_center_of_mass IM (round_output kw)));
    ("convolution"%string, fun IM _ => Ok (find_origin_by_convolution IM));
    ("gaussian"%string, fun IM kw => Ok (find_origin_by_gaussian_fit IM (round_output kw)));
    ("slice"%string, fun IM kw =>
       find_origin_by_slice IM (slice_width kw) (radial_range kw) (axis kw)) ].

Fixpoint lookup {A} (key : string) (d : list (string * A)) : option A :=
  match d with
  | [] => None
  | (k, v) :: d' => if (k =? key)%string then Some v else lookup key d'
  end.

Definition find_origin (IM : image T) (method : string) (kw : kwargs)
  : result (Q * Q) :=
  match lookup method func_method with
  | Some f => f IM kw
  | None => Raise (KeyError method)
  end.

(** ** [center_image] *)

(** The [method] argument: the name of an estimator, or the origin itself. *)
Inductive method_arg :=
| MethodName (name : string)
| Coordinates (origin : option Q * option Q).

(** The odd-size and squaring steps at the head of [center_image]. *)
Definition trim_image (IM : image T) (odd_size square : bool) : image T :=
  let cols := Z.of_nat (ncols IM) in
  (* drop rightside column *)
  let IM := if odd_size && (cols mod 2 =? 0)
            then getitem IM (slice_all, slice_to (-1)) else IM in
  let rows := Z.of_nat (nrows IM) in
  let cols := Z.of_nat (ncols IM) in
  if square && negb (rows =? cols) then
    (* make rows == cols, but maintain approx. center *)
    if rows >? cols then
      let diff := rows - cols in
      let trim := diff / 2 in
      (* remove even number of rows off each end *)
      let IM := if trim >? 0
                then getitem IM (slice_of trim (- trim), slice_all) else IM in
      (* remove one additional row *)
      if negb (diff mod 2 =? 0)
      then getitem IM (slice_to (-1), slice_all) else IM
    else
      (* make rows == cols, check row oddness *)
      let '(IM, rows) :=
        if odd_size && (rows mod 2 =? 0)
        then (getitem IM (slice_to (-1), slice_all), rows - 1)
        else (IM, rows) in
      let xs := (cols - rows) / 2 in
      getitem IM (slice_all, slice_of xs (- xs))
  else IM.

Definition center_image (IM : image T) (method : method_arg)
    (odd_size square : bool) (axes : bool * bool) (crop : string)
    (kw : kwargs) : result (ndarray T) :=
  let IM := trim_image IM odd_size square in
  (* origin is in (row, column) format! *)
  origin <- match method with
            | MethodName name =>
                rc <- find_origin IM name kw ;;
                Ok (Some (fst rc), Some (snd rc))
            | Coordinates origin => Ok origin
            end ;;
  set_center IM origin crop axes 3.

End Estimators.

(** ** Vocabulary of the statements *)

(** An origin given in whole pixels. *)
Definition whole_origin (zo : option Z * option Z) : option Q * option Q :=
  (option_map inject_Z (fst zo), option_map inject_Z (snd zo)).

(** The absolute coordinate of a whole-pixel coordinate: a negative one counts
    from the far edge. *)
Definition absolute (n : nat) (z : Z) : Z :=
  if z <? 0 then z + Z.of_nat n else z.

(** The axis takes part in the centering: it is in [axes] and its origin
    coordinate is not [None]. *)
Definition whole_active (in_axes : bool) (z : option Z) : option Z :=
  if in_axes then z else None.

(** A coordinate that addresses the array, directly or from the far edge. *)
Definition valid_coordinate (n : nat) (c : option Q) : Prop :=
  match c with
  | Some q => (- inject_Z (Z.of_nat n) <= q)%Q /\ (q < inject_Z (Z.of_nat n))%Q
  | None => True
  end.

(** A whole-pixel coordinate inside the array, once made absolute. *)
Definition inside (n : nat) (z : option Z) : Prop :=
  match z with
  | Some z => 0 <= absolute n z < Z.of_nat n
  | None => True
  end.

(** The shift [delta[a]] applied on an axis by the whole-pixel path. *)
Definition whole_delta (c : Z) (act : option axis_origin) : Z :=
  match act with
  | Some ao => c - o ao
  | None => 0
  end.

(** [d] of [valid_region] and of [maintain_data] for an absolute origin. *)
Definition near_edge (n : nat) (z : Z) : Z := Z.min z (Z.of_nat n - 1 - z).
Definition far_edge (n : nat) (z : Z) : Z := Z.max z (Z.of_nat n - 1 - z).

(** The slice [[origin-d : origin+d+1]] with [d = min(origin, mirror)] on an
    active axis, and [[:]] on the others. *)
Definition symmetric_slice (n : nat) (z : option Z) : slice :=
  match z with
  | Some z =>
      let a := absolute n z in
      slice_of (a - near_edge n a) (a + near_edge n a + 1)
  | None => slice_all
  end.

(** Length of the output of [maintain_data] on an axis, and the offset at
    which the input sits in it. *)
Definition padded_length (n : nat) (z : option Z) : nat :=
  match z with
  | Some z => Z.to_nat (2 * far_edge n (absolute n z) + 1)
  | None => n
  end.

Definition pad_after (n : nat) (z : option Z) : nat :=
  match z with
  | Some z =>
      let a := absolute n z in
      Z.to_nat (far_edge n a - (Z.of_nat n - 1 - a))
  | None => 0%nat
  end.

Definition pad_offset (n : nat) (z : option Z) : nat :=
  match z with
  | Some z => Z.to_nat (far_edge n (absolute n z) - absolute n z)
  | None => 0%nat
  end.

(** Length of the output of [valid_region] on an axis, and the offset at
    which it starts in the input, for an origin inside the array. *)
Definition cropped_length (n : nat) (z : option Z) : nat :=
  match z with
  | Some z => Z.to_nat (2 * near_edge n (absolute n z) + 1)
  | None => n
  end.

Definition crop_offset (n : nat) (z : option Z) : nat :=
  match z with
  | Some z => Z.to_nat (absolute n z - near_edge n (absolute n z))
  | None => 0%nat
  end.

(** The cell [(i, j)] lies in the region [d] of an array of shape [(n0, n1)]. *)
Definition in_region (d : slice * slice) (n0 n1 i j : nat) : bool :=
  (slice_lo (fst d) n0 <=? i)%nat
  && (i <? slice_lo (fst d) n0 + slice_len (fst d) n0)%nat
  && (slice_lo (snd d) n1 <=? j)%nat
  && (j <? slice_lo (snd d) n1 + slice_len (snd d) n1)%nat.

(** Where the cell [i] of the output of a shift by [delta] comes from on an
    axis of length [n]: the cell [i - delta] of the input when there is one. *)
Definition source_index (n : nat) (delta : Z) (i : nat) : option nat :=
  let k := Z.of_nat i - delta in
  if (0 <=? k) && (k <? Z.of_nat n) then Some (Z.to_nat k) else None.

(** The image [a] translated by [(delta0, delta1)]: what leaves the array is
    lost and what enters it is zero. *)
Definition translated {T} `{Pixel T} (a : image T) (delta0 delta1 : Z)
    (i j : nat) : T :=
  match source_index (nrows a) delta0 i, source_index (ncols a) delta1 j with
  | Some i', Some j' => px a i' j'
  | _, _ => zero
  end.

(** The bounds of an axis that is valid for the whole-pixel shift: the
    origin lies between [0] and the length. *)
Definition within (n : nat) (act : option axis_origin) : Prop :=
  match act with
  | Some ao => 0 <= o ao <= Z.of_nat n /\ (0 < n)%nat
  | None => True
  end.

(** [d] for the policy at hand: the distance to the nearer edge for
    [valid_region], to the farther edge otherwise. *)
Definition edge_distance (crop : string) (n : nat) (a : Z) : Z :=
  if (crop =? "valid_region")%string then near_edge n a else far_edge n a.

(** The index in the output at which the input cell of index [origin] sits
    on an active axis: the crop removes [crop_offset] leading cells, the
    padding adds [pad_offset] of them. *)
Definition landing_index (crop : string) (n : nat) (z : Z) : Z :=
  if (crop =? "valid_region")%string
  then absolute n z - Z.of_nat (crop_offset n (Some z))
  else Z.of_nat (pad_offset n (Some z)) + absolute n z.

(** [a in axis] *)
Definition requested (a : Z) (axis : list Z) : bool := existsb (Z.eqb a) axis.

(** The results of the minimizer on the vertical and on the horizontal pair
    of profiles of an image. *)
Definition vertical_fit {T} `{Pixel T} `{Numerics T} (IM : image T)
    (radial_range : Z * Z) (slice_width : Z) : OptimizeResult :=
  let '(top, bottom, _, _) := axis_slices IM radial_range slice_width in
  minimize_align top bottom.

Definition horizontal_fit {T} `{Pixel T} `{Numerics T} (IM : image T)
    (radial_range : Z * Z) (slice_width : Z) : OptimizeResult :=
  let '(_, _, left_, right_) := axis_slices IM radial_range slice_width in
  minimize_align left_ right_.

(** The offset of an axis: [-s/2] for the minimizing shift [s] when the axis
    is requested, [0] otherwise. *)
Definition axis_offset (a : Z) (axis : list Z) (fit : OptimizeResult) : Q :=
  if requested a axis then (- x fit / 2)%Q else 0%Q.

(** The split index [n // 2 + n % 2] that [axis_slices] computes. *)
Definition split_index (n : Z) : Z := n / 2 + n mod 2.

(** The three crop policies. *)
Definition crop_policy (crop : string) : Prop :=
  crop = "maintain_size"%string \/ crop = "valid_region"%string
  \/ crop = "maintain_data"%string.

(** ** Instances used to run the definitions *)

#[export] Instance Z_pixel : Pixel Z := {| zero := 0; add := Z.add |}.

Definition clamp (lo hi v : Z) : Z := Z.max lo (Z.min hi v).

(** A shift by whole pixels with zero fill (the nearest whole shift, limited to
    the size of the array): a collaborator that honours the contract. *)
Definition shift_whole_pixels {T} `{Pixel T} (a : image T) (delta : Q * Q)
    (order : nat) : image T :=
  let n0 := Z.of_nat (nrows a) in
  let n1 := Z.of_nat (ncols a) in
  let k0 := clamp (- n0) n0 (py_round (fst delta)) in
  let k1 := clamp (- n1) n1 (py_round (snd delta)) in
  let src := (slice_of (Z.max 0 (- k0)) (n0 - Z.max 0 k0),
              slice_of (Z.max 0 (- k1)) (n1 - Z.max 0 k1)) in
  let dst := (slice_of (Z.max 0 k0) (n0 - Z.max 0 (- k0)),
              slice_of (Z.max 0 k1) (n1 - Z.max 0 (- k1))) in
  match setitem (zeros_like a) dst (getitem a src) with
  | Ok out => out
  | Raise _ => a
  end.

(** A minimizer that converges (at shift 0) exactly when the two profiles
    already coincide. *)
Definition minimize_exact (sliceA sliceB : list Z) : OptimizeResult :=
  if list_eq_dec Z.eq_dec sliceA sliceB
  then mkOptimizeResult true 0 "CONVERGENCE"
  else mkOptimizeResult false (1 # 10) "ABNORMAL_TERMINATION_IN_LNSRCH".

#[export] Instance Z_numerics : Numerics Z := {|
  shift := shift_whole_pixels;
  minimize_align := minimize_exact;
  center_of_mass := fun IM => (0, 0)%Q;
  fit_gaussian_center := fun _ => 0%Q;
  argmax_autoconvolution := fun _ => 0%nat
|}.

Definition image3x3 : image Z := Image [[1; 2; 3]; [4; 5; 6]; [7; 8; 9]] 3.
Definition image2x3 : image Z := Image [[1; 2; 3]; [4; 5; 6]] 3.
Definition image5x3 : image Z :=
  Image [[1; 2; 3]; [4; 5; 6]; [7; 8; 9]; [10; 11; 12]; [13; 14; 15]] 3.

(** ** Vocabulary of the further properties *)

(** The length left on an axis when the origin is the centre index of the
    axis itself: an even length loses its last cell. *)
Definition odd_trim (n : nat) : nat := if Nat.even n then (n - 1)%nat else n.

(** The shift applied by the whole-pixel path on an active axis when the
    origin is [shape // 2]: one cell towards the start for an even length. *)
Definition image_center_delta (in_axes : bool) (n : nat) : Z :=
  if in_axes && Nat.even n then -1 else 0.

(** The cells added in front of an axis by [maintain_data] when the origin
    is the centre index of the axis itself: one for an even length. *)
Definition even_pad (n : nat) : nat := if Nat.even n then 1%nat else 0%nat.

(** The names registered in [func_method]. *)
Definition known_method (method : string) : Prop :=
  method = "image_center"%string \/ method = "com"%string
  \/ method = "convolution"%string \/ method = "gaussian"%string
  \/ method = "slice"%string.

(** The four profiles returned by [axis_slices]. *)
Definition top_profile {T} `{Pixel T} (IM : image T) (radial_range : Z * Z)
    (slice_width : Z) : list T :=
  let '(top, _, _, _) := axis_slices IM radial_range slice_width in top.

Definition bottom_profile {T} `{Pixel T} (IM : image T) (radial_range : Z * Z)
    (slice_width : Z) : list T :=
  let '(_, bottom, _, _) := axis_slices IM radial_range slice_width in bottom.

Definition left_profile {T} `{Pixel T} (IM : image T) (radial_range : Z * Z)
    (slice_width : Z) : list T :=
  let '(_, _, left_, _) := axis_slices IM radial_range slice_width in left_.

Definition right_profile {T} `{Pixel T} (IM : image T) (radial_range : Z * Z)
    (slice_width : Z) : list T :=
  let '(_, _, _, right_) := axis_slices IM radial_range slice_width in right_.

(** The sum of row [i] of the image over the columns of the vertical strip
    [[c2-sw2 : c2+sw2]] of [axis_slices]. *)
Definition strip_sum {T} `{Pixel T} (IM : image T) (slice_width : Z) (i : nat)
  : T :=
  let c2 := split_index (Z.of_nat (ncols IM)) in
  let sw2 := slice_width / 2 in
  fold_left add (take (slice_of (c2 - sw2) (c2 + sw2)) (nth i (rows IM) []))
            zero.

(** ** The autoconvolution collaborator on integer sequences *)

Definition zsum (l : list Z) : Z := fold_right Z.add 0 l.








(** A coordinate, whole or fractional, that lies in the image once made
    absolute: between the first and the last index of the axis. *)
Definition in_image (n : nat) (c : option Q) : Prop :=
  match c with
  | Some q =>
      let q' := if Qneg_bool q then (q + inject_Z (Z.of_nat n))%Q else q in
      (0 <= q')%Q /\ (q' <= inject_Z (Z.of_nat n - 1))%Q
  | None => True
  end.

(** * Properties *)

(** ** Slices of sequences *)

Section Sequences.
Context {A : Type}.
Implicit Types (l v : list A) (s : slice).

Lemma clip_index_range (n : nat) (i : Z) :
  0 <= clip_index (Z.of_nat n) i <= Z.of_nat n.
Proof. unfold clip_index. destruct (i <? 0) eqn:E; lia. Qed.

Lemma slice_lo_le s (n : nat) : (slice_lo s n <= n)%nat.
Proof.
  unfold slice_lo. destruct (start s) as [i|]; [|lia].
  pose proof (clip_index_range n i). lia.
Qed.

Lemma slice_hi_le s (n : nat) : (slice_hi s n <= n)%nat.
Proof.
  unfold slice_hi. destruct (stop s) as [i|]; [|lia].
  pose proof (clip_index_range n i). lia.
Qed.

Lemma slice_len_le s (n : nat) : (slice_len s n <= n)%nat.
Proof. unfold slice_len. pose proof (slice_hi_le s n). lia. Qed.

Lemma slice_lo_len_le s (n : nat) : (slice_lo s n + slice_len s n <= n)%nat.
Proof.
  unfold slice_len. pose proof (slice_hi_le s n). pose proof (slice_lo_le s n).
  lia.
Qed.

(** A slice [[a:b]] whose bounds already lie in [0 <= a <= b <= n]. *)
Lemma slice_of_lo (n : nat) (a b : Z) :
  0 <= a <= Z.of_nat n -> slice_lo (slice_of a b) n = Z.to_nat a.
Proof.
  intros Ha. unfold slice_lo, slice_of, clip_index; simpl.
  destruct (a <? 0) eqn:E; lia.
Qed.

Lemma slice_of_hi (n : nat) (a b : Z) :
  0 <= b <= Z.of_nat n -> slice_hi (slice_of a b) n = Z.to_nat b.
Proof.
  intros Hb. unfold slice_hi, slice_of, clip_index; simpl.
  destruct (b <? 0) eqn:E; lia.
Qed.

Lemma slice_of_len (n : nat) (a b : Z) :
  0 <= a <= Z.of_nat n -> 0 <= b <= Z.of_nat n ->
  slice_len (slice_of a b) n = Z.to_nat (b - a).
Proof.
  intros Ha Hb. unfold slice_len.
  rewrite slice_of_lo, slice_of_hi by assumption. lia.
Qed.

(** [[a:-b]] drops [a] entries at the front and [b] at the back. *)
Lemma slice_of_neg_len (n : nat) (a b : Z) :
  0 <= a -> 0 < b -> a + b <= Z.of_nat n ->
  slice_len (slice_of a (- b)) n = Z.to_nat (Z.of_nat n - a - b).
Proof.
  intros Ha Hb Hn. unfold slice_len, slice_hi, slice_lo, slice_of, clip_index.
  simpl. destruct (a <? 0) eqn:E1; destruct (- b <? 0) eqn:E2; lia.
Qed.

Lemma slice_to_neg_len (n : nat) (b : Z) :
  0 < b <= Z.of_nat n ->
  slice_len (slice_to (- b)) n = Z.to_nat (Z.of_nat n - b).
Proof.
  intros Hb. unfold slice_len, slice_hi, slice_lo, slice_to, clip_index.
  simpl. destruct (- b <? 0) eqn:E2; lia.
Qed.

Lemma slice_from_len (n : nat) (a : Z) :
  0 <= a <= Z.of_nat n ->
  slice_len (slice_from a) n = Z.to_nat (Z.of_nat n - a).
Proof.
  intros Ha. unfold slice_len, slice_hi, slice_lo, slice_from, clip_index.
  simpl. destruct (a <? 0) eqn:E1; lia.
Qed.

Lemma slice_all_lo (n : nat) : slice_lo slice_all n = 0%nat.
Proof. reflexivity. Qed.

Lemma slice_all_len (n : nat) : slice_len slice_all n = n.
Proof. unfold slice_len, slice_hi, slice_lo; simpl. lia. Qed.

Lemma length_take s l : length (take s l) = slice_len s (length l).
Proof.
  unfold take. rewrite length_firstn, length_skipn.
  pose proof (slice_lo_len_le s (length l)). lia.
Qed.

Lemma nth_take s l (i : nat) (d : A) :
  (i < slice_len s (length l))%nat ->
  nth i (take s l) d = nth (slice_lo s (length l) + i) l d.
Proof.
  intros Hi. unfold take. rewrite nth_firstn.
  destruct (Nat.ltb_spec i (slice_len s (length l))); [|lia].
  apply nth_skipn.
Qed.

Lemma In_take s l (x : A) : In x (take s l) -> In x l.
Proof.
  unfold take. intros Hx.
  set (lo := slice_lo s (length l)) in *.
  set (k := slice_len s (length l)) in *.
  rewrite <- (firstn_skipn lo l). apply in_or_app. right.
  rewrite <- (firstn_skipn k (skipn lo l)). apply in_or_app. left. exact Hx.
Qed.

Lemma take_all l : take slice_all l = l.
Proof.
  unfold take. rewrite slice_all_len, slice_all_lo. simpl. apply firstn_all.
Qed.

Lemma length_write (lo : nat) v l :
  (lo + length v <= length l)%nat -> length (write lo v l) = length l.
Proof.
  intros Hl. unfold write.
  rewrite !length_app, length_firstn, length_skipn. lia.
Qed.

Lemma nth_write (lo : nat) v l (i : nat) (d : A) :
  (lo + length v <= length l)%nat ->
  nth i (write lo v l) d =
    if (lo <=? i)%nat && (i <? lo + length v)%nat
    then nth (i - lo) v d else nth i l d.
Proof.
  intros Hl. unfold write.
  assert (Hf : length (firstn lo l) = lo) by (rewrite length_firstn; lia).
  destruct (Nat.leb_spec lo i) as [Hlo|Hlo]; simpl.
  - rewrite app_nth2 by lia. rewrite Hf.
    destruct (Nat.ltb_spec i (lo + length v)) as [Hhi|Hhi].
    + apply app_nth1. lia.
    + rewrite app_nth2 by lia. rewrite nth_skipn. f_equal. lia.
  - rewrite app_nth1 by lia. rewrite nth_firstn.
    destruct (Nat.ltb_spec i lo); [reflexivity|lia].
Qed.

Lemma In_write (lo : nat) v l (x : A) :
  In x (write lo v l) -> In x l \/ In x v.
Proof.
  unfold write. intros Hx.
  apply in_app_or in Hx. destruct Hx as [Hx|Hx].
  { left. rewrite <- (firstn_skipn lo l). apply in_or_app. left. exact Hx. }
  apply in_app_or in Hx. destruct Hx as [Hx|Hx]; [right; exact Hx|].
  left. rewrite <- (firstn_skipn (lo + length v) l).
  apply in_or_app. right. exact Hx.
Qed.

Lemma length_stretch (t : nat) l :
  can_broadcast (length l) t = true -> length (stretch t l) = t.
Proof.
  unfold can_broadcast, stretch. intros Hb.
  destruct (Nat.eqb_spec (length l) t) as [E|E]; [exact E|].
  simpl in Hb. apply Nat.eqb_eq in Hb.
  destruct l as [|a [|b l]]; try discriminate. apply repeat_length.
Qed.

Lemma stretch_same (t : nat) l : length l = t -> stretch t l = l.
Proof. intros E. unfold stretch. rewrite E, Nat.eqb_refl. reflexivity. Qed.

End Sequences.

Lemma length_zip_with {A B C} (f : A -> B -> C) (l : list A) (m : list B) :
  length (zip_with f l m) = Nat.min (length l) (length m).
Proof.
  revert m. induction l as [|a l IH]; intros [|b m]; simpl; auto.
Qed.

Lemma nth_zip_with {A B C} (f : A -> B -> C) (l : list A) (m : list B)
    (i : nat) (da : A) (db : B) (dc : C) :
  (i < length l)%nat -> (i < length m)%nat ->
  nth i (zip_with f l m) dc = f (nth i l da) (nth i m db).
Proof.
  revert m i. induction l as [|a l IH]; intros [|b m] [|i]; simpl; intros;
    try lia; auto.
  apply IH; lia.
Qed.

(** ** Arrays: shape, well-formedness and cells of the numpy operations *)

Section ArrayFacts.
Context {T : Type} `{Pixel T}.
Implicit Types (a v out : image T) (s d : slice * slice).

Lemma wf_rows a :
  wf a = true <-> (forall r, In r (rows a) -> length r = ncols a).
Proof.
  unfold wf. rewrite forallb_forall. split; intros Hw r Hr.
  - apply Nat.eqb_eq, Hw, Hr.
  - apply Nat.eqb_eq, Hw, Hr.
Qed.

Lemma wf_nth a (i : nat) :
  wf a = true -> (i < nrows a)%nat -> length (nth i (rows a) []) = ncols a.
Proof. intros Hw Hi. apply wf_rows; [exact Hw|]. apply nth_In, Hi. Qed.

(** Two well-formed arrays of one shape with the same cells are equal. *)
Lemma image_ext a v :
  wf a = true -> wf v = true -> shape a = shape v ->
  (forall i j, (i < nrows a)%nat -> (j < ncols a)%nat -> px a i j = px v i j) ->
  a = v.
Proof.
  intros Ha Hv Hs Hpx. unfold shape in Hs. injection Hs as Hn Hc.
  destruct a as [ra ca], v as [rv cv]. simpl in *. subst cv. f_equal.
  apply (nth_ext _ _ [] []); [exact Hn|].
  intros i Hi. apply (nth_ext _ _ zero zero).
  - rewrite (wf_nth (Image ra ca)), (wf_nth (Image rv ca)); auto.
    unfold nrows in *; simpl in *. lia.
  - intros j Hj. rewrite (wf_nth (Image ra ca)) in Hj by auto.
    apply (Hpx i j); auto.
Qed.

Lemma shape_getitem a s :
  shape (getitem a s)
  = (slice_len (fst s) (nrows a), slice_len (snd s) (ncols a)).
Proof.
  unfold shape, nrows, getitem; simpl.
  rewrite length_map, length_take. reflexivity.
Qed.

Lemma nrows_getitem a s : nrows (getitem a s) = slice_len (fst s) (nrows a).
Proof. unfold nrows, getitem; simpl. rewrite length_map. apply length_take. Qed.

Lemma ncols_getitem a s : ncols (getitem a s) = slice_len (snd s) (ncols a).
Proof. reflexivity. Qed.

Lemma wf_getitem a s : wf a = true -> wf (getitem a s) = true.
Proof.
  intros Hw. apply wf_rows. intros r Hr. simpl in Hr.
  apply in_map_iff in Hr. destruct Hr as [r0 [<- Hr0]].
  rewrite length_take. simpl. f_equal.
  apply wf_rows; [exact Hw|].
  apply In_take in Hr0. exact Hr0.
Qed.

Lemma px_getitem a s (i j : nat) :
  wf a = true ->
  (i < slice_len (fst s) (nrows a))%nat ->
  (j < slice_len (snd s) (ncols a))%nat ->
  px (getitem a s) i j
  = px a (slice_lo (fst s) (nrows a) + i) (slice_lo (snd s) (ncols a) + j).
Proof.
  intros Hw Hi Hj. unfold px, getitem; simpl.
  assert (Hi' : (i < length (take (fst s) (rows a)))%nat)
    by (rewrite length_take; exact Hi).
  rewrite (nth_indep _ [] (take (snd s) [])) by (rewrite length_map; exact Hi').
  rewrite map_nth. rewrite (nth_take (fst s) (rows a) i []) by exact Hi.
  pose proof (slice_lo_len_le (fst s) (nrows a)) as Hb.
  assert (Hl : length (nth (slice_lo (fst s) (length (rows a)) + i) (rows a) [])
               = ncols a).
  { apply wf_nth; [exact Hw|]. unfold nrows in *. lia. }
  rewrite nth_take; rewrite Hl; [reflexivity|exact Hj].
Qed.

Lemma getitem_all a : wf a = true -> getitem a (slice_all, slice_all) = a.
Proof.
  intros Hw. unfold getitem; simpl. rewrite take_all, slice_all_len.
  destruct a as [ra ca]; simpl. f_equal.
  rewrite <- (map_id ra) at 2. apply map_ext. intros r. apply take_all.
Qed.

Lemma shape_zeros_like a : shape (zeros_like a) = shape a.
Proof.
  unfold shape, nrows, zeros_like; simpl. rewrite repeat_length. reflexivity.
Qed.

Lemma wf_zeros_like a : wf (zeros_like a) = true.
Proof.
  apply wf_rows. intros r Hr. simpl in Hr.
  apply repeat_spec in Hr. subst r. apply repeat_length.
Qed.

Lemma nth_zero_row (w j : nat) : nth j (repeat (zero : T) w) zero = zero.
Proof. apply nth_repeat. Qed.

Lemma px_zero_rows (k w i j : nat) (tl : list (list T)) :
  (i < k)%nat -> nth j (nth i (repeat (repeat zero w) k ++ tl) []) zero = zero.
Proof.
  intros Hi. rewrite app_nth1 by (rewrite repeat_length; exact Hi).
  rewrite (nth_indep _ [] (repeat zero w)) by (rewrite repeat_length; exact Hi).
  rewrite nth_repeat. apply nth_zero_row.
Qed.

Lemma px_zeros_like a (i j : nat) : px (zeros_like a) i j = zero.
Proof.
  unfold px, zeros_like; simpl.
  destruct (Nat.ltb_spec i (nrows a)) as [Hi|Hi].
  - rewrite <- (app_nil_r (repeat _ _)). apply px_zero_rows. exact Hi.
  - rewrite (nth_overflow (repeat _ _) [])
      by (rewrite repeat_length; exact Hi).
    destruct j; reflexivity.
Qed.

Lemma shape_pad_zeros (b0 a0 b1 a1 : nat) a :
  shape (pad_zeros b0 a0 b1 a1 a)
  = ((b0 + nrows a + a0)%nat, (b1 + ncols a + a1)%nat).
Proof.
  unfold shape, nrows, pad_zeros; simpl.
  rewrite !length_app, !repeat_length, length_map. f_equal. lia.
Qed.

Lemma wf_pad_zeros (b0 a0 b1 a1 : nat) a :
  wf a = true -> wf (pad_zeros b0 a0 b1 a1 a) = true.
Proof.
  intros Hw. apply wf_rows. intros r Hr. simpl in Hr.
  apply in_app_or in Hr. destruct Hr as [Hr|Hr].
  { apply repeat_spec in Hr. subst r. apply repeat_length. }
  apply in_app_or in Hr. destruct Hr as [Hr|Hr].
  - apply in_map_iff in Hr. destruct Hr as [r0 [<- Hr0]].
    rewrite !length_app, !repeat_length.
    rewrite (proj1 (wf_rows a) Hw r0 Hr0). simpl. lia.
  - apply repeat_spec in Hr. subst r. apply repeat_length.
Qed.

(** The cells of a padded array: the input at offset [(b0, b1)], zero
    around it. *)
Lemma px_pad_zeros (b0 a0 b1 a1 : nat) a (i j : nat) :
  wf a = true ->
  px (pad_zeros b0 a0 b1 a1 a) i j =
    if (b0 <=? i)%nat && (i <? b0 + nrows a)%nat
       && (b1 <=? j)%nat && (j <? b1 + ncols a)%nat
    then px a (i - b0) (j - b1) else zero.
Proof.
  intros Hw. unfold px, pad_zeros; simpl.
  destruct (Nat.leb_spec b0 i) as [Hlo|Hlo]; simpl.
  2:{ apply px_zero_rows. exact Hlo. }
  rewrite app_nth2 by (rewrite repeat_length; exact Hlo).
  rewrite repeat_length.
  destruct (Nat.ltb_spec i (b0 + nrows a)) as [Hhi|Hhi]; simpl.
  - rewrite app_nth1 by (rewrite length_map; unfold nrows in Hhi; lia).
    set (g := fun r : list T => repeat zero b1 ++ r ++ repeat zero a1).
    rewrite (nth_indep _ [] (g [])) by (rewrite length_map; unfold nrows in Hhi; lia).
    rewrite map_nth. unfold g.
    assert (Hl : length (nth (i - b0) (rows a) []) = ncols a)
      by (apply wf_nth; [exact Hw|lia]).
    destruct (Nat.leb_spec b1 j) as [Hjl|Hjl]; simpl.
    + rewrite app_nth2 by (rewrite repeat_length; exact Hjl).
      rewrite repeat_length.
      destruct (Nat.ltb_spec j (b1 + ncols a)) as [Hjh|Hjh].
      * apply app_nth1. lia.
      * rewrite app_nth2 by lia. apply nth_zero_row.
    + rewrite app_nth1 by (rewrite repeat_length; exact Hjl).
      apply nth_zero_row.
  - rewrite app_nth2 by (rewrite length_map; unfold nrows in Hhi; lia).
    rewrite length_map.
    destruct (Nat.ltb_spec (i - b0 - length (rows a)) a0) as [Hk|Hk].
    + rewrite <- (app_nil_r (repeat _ a0)). apply px_zero_rows. exact Hk.
    + rewrite (nth_overflow (repeat _ _) [])
        by (rewrite repeat_length; exact Hk).
      destruct j; reflexivity.
Qed.

End ArrayFacts.

Lemma In_zip_with {A B C} (f : A -> B -> C) (l : list A) (m : list B) (c : C) :
  In c (zip_with f l m) -> exists a b, In a l /\ In b m /\ c = f a b.
Proof.
  revert m. induction l as [|a l IH]; intros [|b m]; simpl; try tauto.
  intros [<-|Hc].
  - exists a, b. auto.
  - destruct (IH m Hc) as [a' [b' [Ha [Hb E]]]]. exists a', b'. auto.
Qed.

Lemma In_stretch {A} (t : nat) (l : list A) (x : A) :
  In x (stretch t l) -> In x l.
Proof.
  unfold stretch. destruct (Nat.eqb (length l) t); [auto|].
  destruct l as [|a [|b l]]; auto.
  intros Hx. apply repeat_spec in Hx. subst x. left. reflexivity.
Qed.

Section Assignment.
Context {T : Type} `{Pixel T}.
Implicit Types (a v out : image T) (d : slice * slice).

(** A successful assignment keeps the shape of the target. *)
Lemma setitem_shape out d v out' :
  wf out = true -> wf v = true -> setitem out d v = Ok out' ->
  wf out' = true /\ shape out' = shape out.
Proof.
  intros Ho Hv. unfold setitem.
  destruct (can_broadcast (nrows v) (slice_len (fst d) (nrows out))
            && can_broadcast (ncols v) (slice_len (snd d) (ncols out)))
    eqn:Hb; [|discriminate].
  apply andb_true_iff in Hb. destruct Hb as [Hb0 Hb1].
  intros E. injection E as <-.
  set (t0 := slice_len (fst d) (nrows out)) in *.
  set (t1 := slice_len (snd d) (ncols out)) in *.
  set (lo0 := slice_lo (fst d) (nrows out)).
  set (lo1 := slice_lo (snd d) (ncols out)).
  pose proof (slice_lo_len_le (fst d) (nrows out)) as B0.
  pose proof (slice_lo_len_le (snd d) (ncols out)) as B1.
  fold t0 lo0 in B0. fold t1 lo1 in B1.
  set (vrows := map (stretch t1) (stretch t0 (rows v))).
  set (old := firstn t0 (skipn lo0 (rows out))).
  assert (Lv : length vrows = t0).
  { unfold vrows. rewrite length_map. apply length_stretch. exact Hb0. }
  assert (Lo : length old = t0).
  { unfold old. rewrite length_firstn, length_skipn. unfold nrows in B0. lia. }
  assert (Lz : length (zip_with (write lo1) vrows old) = t0).
  { rewrite length_zip_with. lia. }
  split.
  - apply wf_rows. intros r Hr. simpl in Hr. simpl.
    apply In_write in Hr. destruct Hr as [Hr|Hr].
    { apply (proj1 (wf_rows out) Ho). exact Hr. }
    apply In_zip_with in Hr. destruct Hr as [vr [ro [Hvr [Hro ->]]]].
    assert (Lro : length ro = ncols out).
    { apply (proj1 (wf_rows out) Ho).
      unfold old in Hro.
      rewrite <- (firstn_skipn lo0 (rows out)). apply in_or_app. right.
      rewrite <- (firstn_skipn t0 (skipn lo0 (rows out))).
      apply in_or_app. left. exact Hro. }
    assert (Lvr : length vr = t1).
    { unfold vrows in Hvr. apply in_map_iff in Hvr.
      destruct Hvr as [r0 [<- Hr0]]. apply length_stretch.
      apply In_stretch in Hr0.
      rewrite (proj1 (wf_rows v) Hv r0 Hr0). exact Hb1. }
    rewrite length_write; lia.
  - unfold shape, nrows; simpl. f_equal.
    apply length_write. unfold nrows in B0. lia.
Qed.

(** Assignment of a value that has exactly the shape of the region. *)
Lemma setitem_exact out d v :
  wf out = true -> wf v = true ->
  nrows v = slice_len (fst d) (nrows out) ->
  ncols v = slice_len (snd d) (ncols out) ->
  exists out',
    setitem out d v = Ok out'
    /\ wf out' = true
    /\ shape out' = shape out
    /\ forall i j, (i < nrows out)%nat -> (j < ncols out)%nat ->
         px out' i j =
           if in_region d (nrows out) (ncols out) i j
           then px v (i - slice_lo (fst d) (nrows out))
                     (j - slice_lo (snd d) (ncols out))
           else px out i j.
Proof.
  intros Ho Hv E0 E1.
  destruct (setitem out d v) as [out'|e] eqn:Es.
  2:{ unfold setitem in Es. rewrite E0, E1 in Es.
      unfold can_broadcast in Es. rewrite !Nat.eqb_refl in Es. discriminate. }
  exists out'. split; [reflexivity|].
  destruct (setitem_shape out d v out' Ho Hv Es) as [Hw' Hs'].
  split; [exact Hw'|]. split; [exact Hs'|].
  intros i j Hi Hj.
  unfold setitem in Es. rewrite <- E0, <- E1 in Es.
  unfold can_broadcast in Es. rewrite !Nat.eqb_refl in Es. simpl in Es.
  injection Es as <-.
  unfold in_region. rewrite <- E0, <- E1.
  set (lo0 := slice_lo (fst d) (nrows out)).
  set (lo1 := slice_lo (snd d) (ncols out)).
  pose proof (slice_lo_len_le (fst d) (nrows out)) as B0.
  pose proof (slice_lo_len_le (snd d) (ncols out)) as B1.
  rewrite <- E0 in B0. rewrite <- E1 in B1. fold lo0 in B0. fold lo1 in B1.
  assert (Ev : map (stretch (ncols v)) (stretch (nrows v) (rows v)) = rows v).
  { rewrite stretch_same by reflexivity.
    rewrite <- (map_id (rows v)) at 2. apply map_ext_in.
    intros r Hr. apply stretch_same. apply (proj1 (wf_rows v) Hv r Hr). }
  rewrite Ev.
  set (old := firstn (nrows v) (skipn lo0 (rows out))).
  assert (Lo : length old = nrows v).
  { unfold old. rewrite length_firstn, length_skipn. unfold nrows in *. lia. }
  assert (Lz : length (zip_with (write lo1) (rows v) old) = nrows v).
  { rewrite length_zip_with. unfold nrows in *. lia. }
  unfold px; simpl.
  rewrite nth_write by (rewrite Lz; unfold nrows in *; lia).
  rewrite Lz.
  destruct ((lo0 <=? i)%nat && (i <? lo0 + nrows v)%nat) eqn:Hr; simpl.
  - apply andb_true_iff in Hr. destruct Hr as [Hr1 Hr2].
    apply Nat.leb_le in Hr1. apply Nat.ltb_lt in Hr2.
    rewrite (nth_zip_with (write lo1) (rows v) old (i - lo0) [] [] [])
      by (unfold nrows in *; lia).
    assert (Eo : nth (i - lo0) old [] = nth i (rows out) []).
    { unfold old. rewrite nth_firstn.
      destruct (Nat.ltb_spec (i - lo0) (nrows v)); [|lia].
      rewrite nth_skipn. f_equal. lia. }
    rewrite Eo.
    assert (Lr : length (nth i (rows out) []) = ncols out)
      by (apply wf_nth; assumption).
    assert (Lvr : length (nth (i - lo0) (rows v) []) = ncols v)
      by (apply wf_nth; [assumption|lia]).
    rewrite nth_write by lia. rewrite Lvr.
    destruct ((lo1 <=? j)%nat && (j <? lo1 + ncols v)%nat); reflexivity.
  - reflexivity.
Qed.

End Assignment.

(** ** Preprocessing of the origin *)

Lemma py_int_range (q : Q) (n : Z) :
  0 <= Qnum q -> Qnum q < n * Zpos (Qden q) -> 0 <= py_int q < n.
Proof.
  intros H0 Hn. unfold py_int.
  rewrite Z.quot_div_nonneg by lia. split.
  - apply Z.div_pos; lia.
  - apply Z.div_lt_upper_bound; lia.
Qed.

Lemma Qfloor_range (q : Q) (n : Z) :
  0 <= Qnum q -> Qnum q < n * Zpos (Qden q) -> 0 <= Qfloor q < n.
Proof.
  intros H0 Hn. destruct q as [a b]. simpl in *. split.
  - apply Z.div_pos; lia.
  - apply Z.div_lt_upper_bound; lia.
Qed.

Lemma py_round_range (q : Q) (n : Z) :
  0 <= Qnum q -> Qnum q < n * Zpos (Qden q) -> 0 <= py_round q <= n.
Proof.
  intros H0 Hn. pose proof (Qfloor_range q n H0 Hn) as Hf. unfold py_round.
  destruct (_ ?= _); [destruct (Z.even _)| |]; lia.
Qed.

Lemma py_int_whole (z : Z) : py_int (inject_Z z) = z.
Proof. unfold py_int; simpl. apply Z.quot_1_r. Qed.

Lemma py_round_whole (z : Z) : py_round (inject_Z z) = z.
Proof.
  unfold py_round. rewrite Qfloor_Z.
  change (Qnum (inject_Z z)) with z. change (Qden (inject_Z z)) with 1%positive.
  replace (2 * (z - z * 1)) with 0 by lia. reflexivity.
Qed.

Section Preprocessing.
Context {T : Type} `{Pixel T} `{Numerics T}.

(** A whole-pixel coordinate is made absolute and has no sub-pixel part,
    whatever the interpolation order. *)
Lemma preprocess_whole (n order : nat) (z : Z) :
  exists ao,
    preprocess n order (Some (inject_Z z)) = Some ao
    /\ o ao = absolute n z
    /\ o_ ao = Z.of_nat n - 1 - absolute n z
    /\ Qzero_bool (sub ao) = true.
Proof.
  unfold preprocess, absolute, Qneg_bool. simpl (Qnum (inject_Z z)).
  destruct (z <? 0) eqn:Ez.
  - assert (Eq : (inject_Z z + inject_Z (Z.of_nat n))%Q
                 = inject_Z (z * 1 + Z.of_nat n * 1)) by reflexivity.
    rewrite Eq.
    destruct (negb (order =? 0)%nat); eexists; (split; [reflexivity|]); simpl.
    + rewrite py_int_whole. unfold Qzero_bool; simpl. repeat split; lia.
    + rewrite py_round_whole. repeat split; lia.
  - destruct (negb (order =? 0)%nat); eexists; (split; [reflexivity|]); simpl.
    + rewrite py_int_whole. unfold Qzero_bool; simpl. repeat split; lia.
    + rewrite py_round_whole. repeat split; lia.
Qed.

(** A valid coordinate is preprocessed to a whole pixel between [0] and
    the length of the axis. *)
Lemma preprocess_valid (n order : nat) (q : Q) :
  valid_coordinate n (Some q) ->
  exists ao,
    preprocess n order (Some q) = Some ao
    /\ 0 <= o ao <= Z.of_nat n
    /\ o_ ao = Z.of_nat n - 1 - o ao.
Proof.
  intros [Hlo Hhi]. unfold Qle in Hlo. unfold Qlt in Hhi. simpl in Hlo, Hhi.
  unfold preprocess, Qneg_bool.
  set (q' := if Qnum q <? 0 then (q + inject_Z (Z.of_nat n))%Q else q).
  assert (R : 0 <= Qnum q' /\ Qnum q' < Z.of_nat n * Zpos (Qden q')).
  { unfold q'. destruct (Qnum q <? 0) eqn:Ez.
    - apply Z.ltb_lt in Ez. destruct q as [a b]. simpl in *.
      rewrite Pos.mul_1_r. lia.
    - apply Z.ltb_ge in Ez. lia. }
  destruct R as [R0 R1].
  destruct (negb (order =? 0)%nat); eexists; (split; [reflexivity|]); simpl.
  - pose proof (py_int_range q' _ R0 R1). lia.
  - pose proof (py_round_range q' _ R0 R1). lia.
Qed.

Lemma effective_order_whole (p0 p1 : option axis_origin) (order : nat) :
  Qzero_bool (subpixel_of p0) = true -> Qzero_bool (subpixel_of p1) = true ->
  effective_order p0 p1 order = 0%nat.
Proof. intros E0 E1. unfold effective_order. rewrite E0, E1. reflexivity. Qed.

(** The order is forced to 0 exactly when every coordinate that is not
    [None] has no sub-pixel part; whether the axis is in [axes] plays no
    part. *)
Lemma effective_order_zero_iff (p0 p1 : option axis_origin) (order : nat) :
  order <> 0%nat ->
  (effective_order p0 p1 order = 0%nat
   <-> Qzero_bool (subpixel_of p0) = true /\ Qzero_bool (subpixel_of p1) = true).
Proof.
  intros Ho. unfold effective_order.
  destruct (Qzero_bool (subpixel_of p0)), (Qzero_bool (subpixel_of p1));
    simpl; split; intros; try tauto; try lia; destruct H1; discriminate.
Qed.

End Preprocessing.

(** ** [set_center] with [crop='maintain_size'] *)

Section MaintainSize.
Context {T : Type} `{Pixel T} `{Numerics T}.

Lemma active_valid (n order : nat) (in_axes : bool) (c : option Q) :
  valid_coordinate n (if in_axes then c else None) ->
  within n (active in_axes (preprocess n order c)).
Proof.
  unfold active. destruct in_axes; [|intros _; exact I].
  destruct c as [q|]; [|intros _; exact I].
  intros Hv. destruct (preprocess_valid n order q Hv) as [ao [-> [Ho _]]].
  simpl. split; [exact Ho|].
  destruct Hv as [Hlo Hhi]. unfold Qle in Hlo. unfold Qlt in Hhi.
  simpl in Hlo, Hhi. lia.
Qed.

(** Source and destination regions of the whole-pixel shift have one
    length, and differ in position by the shift. *)
Lemma whole_pixel_regions_spec (n : nat) (act : option axis_origin) :
  within n act ->
  let c := (Z.of_nat n - 1) / 2 in
  let r := whole_pixel_regions n c act in
  let delta := whole_delta c act in
  slice_lo (fst r) n = Z.to_nat (Z.max 0 (- delta))
  /\ slice_lo (snd r) n = Z.to_nat (Z.max 0 delta)
  /\ slice_len (fst r) n = Z.to_nat (Z.of_nat n - Z.abs delta)
  /\ slice_len (snd r) n = Z.to_nat (Z.of_nat n - Z.abs delta)
  /\ Z.abs delta <= Z.of_nat n.
Proof.
  destruct act as [ao|]; simpl.
  - intros [Ho Hn].
    assert (Hc : 0 <= (Z.of_nat n - 1) / 2 < Z.of_nat n).
    { split; [apply Z.div_pos; lia|apply Z.div_lt_upper_bound; lia]. }
    set (delta := (Z.of_nat n - 1) / 2 - o ao) in *.
    rewrite !slice_of_len, !slice_of_lo by lia.
    repeat split; lia.
  - intros _. rewrite !slice_all_len. unfold slice_lo; simpl.
    repeat split; lia.
Qed.

Lemma in_region_source (n : nat) (lo_s lo_d len : nat) (delta : Z) (i : nat) :
  (i < n)%nat -> Z.abs delta <= Z.of_nat n ->
  lo_s = Z.to_nat (Z.max 0 (- delta)) ->
  lo_d = Z.to_nat (Z.max 0 delta) ->
  len = Z.to_nat (Z.of_nat n - Z.abs delta) ->
  source_index n delta i =
    if (lo_d <=? i)%nat && (i <? lo_d + len)%nat
    then Some (lo_s + (i - lo_d))%nat else None.
Proof.
  intros Hi Hd -> -> ->. unfold source_index.
  destruct (Nat.leb_spec (Z.to_nat (Z.max 0 delta)) i);
    destruct (Nat.ltb_spec i (Z.to_nat (Z.max 0 delta)
                              + Z.to_nat (Z.of_nat n - Z.abs delta)));
    destruct (Z.leb_spec 0 (Z.of_nat i - delta));
    destruct (Z.ltb_spec (Z.of_nat i - delta) (Z.of_nat n));
    simpl; try lia; try reflexivity.
  f_equal. lia.
Qed.

Lemma shape_shifted_crop (data : image T) (delta : Q * Q) (order : nat) :
  shift_keeps_shape -> wf data = true ->
  let out := getitem (shift (pad_zeros 1 1 1 1 data) delta order)
                     (slice_of 1 (-1), slice_of 1 (-1)) in
  wf out = true /\ shape out = shape data.
Proof.
  intros Hs Hw out.
  destruct (Hs (pad_zeros 1 1 1 1 data) delta order
               (wf_pad_zeros 1 1 1 1 data Hw)) as [Hw' Hs'].
  split; [apply wf_getitem; exact Hw'|].
  unfold out. rewrite shape_getitem.
  rewrite shape_pad_zeros in Hs'. unfold shape in Hs'. injection Hs' as E0 E1.
  rewrite E0, E1. simpl fst. simpl snd. unfold shape.
  rewrite !(slice_of_neg_len _ 1 1) by lia. f_equal; lia.
Qed.

End MaintainSize.

Section MaintainSizeTheorem.
Context {T : Type} `{Pixel T} `{Numerics T}.

(** The whole-pixel shift of [set_center]: the assignment
    [out[dst] = data[src]] into a zero array succeeds and translates the
    image. *)
Lemma whole_pixel_shift (data : image T) (act0 act1 : option axis_origin) :
  wf data = true ->
  within (nrows data) act0 -> within (ncols data) act1 ->
  let r0 := whole_pixel_regions (nrows data) (fst (center_of data)) act0 in
  let r1 := whole_pixel_regions (ncols data) (snd (center_of data)) act1 in
  exists out,
    setitem (zeros_like data) (snd r0, snd r1) (getitem data (fst r0, fst r1))
    = Ok out
    /\ wf out = true
    /\ shape out = shape data
    /\ forall i j, (i < nrows data)%nat -> (j < ncols data)%nat ->
         px out i j
         = translated data (whole_delta (fst (center_of data)) act0)
                           (whole_delta (snd (center_of data)) act1) i j.
Proof.
  intros Hw W0 W1.
  destruct (whole_pixel_regions_spec _ _ W0) as [S0 [D0 [LS0 [LD0 A0]]]].
  destruct (whole_pixel_regions_spec _ _ W1) as [S1 [D1 [LS1 [LD1 A1]]]].
  unfold center_of. simpl fst. simpl snd.
  set (delta0 := whole_delta ((Z.of_nat (nrows data) - 1) / 2) act0) in *.
  set (delta1 := whole_delta ((Z.of_nat (ncols data) - 1) / 2) act1) in *.
  set (r0 := whole_pixel_regions (nrows data) ((Z.of_nat (nrows data) - 1) / 2)
               act0) in *.
  set (r1 := whole_pixel_regions (ncols data) ((Z.of_nat (ncols data) - 1) / 2)
               act1) in *.
  set (src := (fst r0, fst r1)). set (dst := (snd r0, snd r1)).
  assert (Z0 : nrows (zeros_like data) = nrows data)
    by (unfold nrows, zeros_like; simpl; apply repeat_length).
  assert (Z1 : ncols (zeros_like data) = ncols data) by reflexivity.
  destruct (setitem_exact (zeros_like data) dst (getitem data src)
              (wf_zeros_like data) (wf_getitem data src Hw))
    as [out [E [Hwo [Hso Hpx]]]].
  { rewrite nrows_getitem, Z0. simpl. lia. }
  { rewrite ncols_getitem, Z1. simpl. lia. }
  exists out. split; [exact E|]. split; [exact Hwo|].
  split; [rewrite Hso; apply shape_zeros_like|].
  intros i j Hi Hj.
  rewrite Hpx by lia. rewrite px_zeros_like.
  unfold translated, in_region. rewrite Z0, Z1. simpl fst. simpl snd.
  rewrite (in_region_source (nrows data) _ _ _ delta0 i Hi A0 S0 D0 LD0).
  rewrite (in_region_source (ncols data) _ _ _ delta1 j Hj A1 S1 D1 LD1).
  destruct ((slice_lo (snd r0) (nrows data) <=? i)%nat
            && (i <? slice_lo (snd r0) (nrows data)
                     + slice_len (snd r0) (nrows data))%nat) eqn:R0;
    simpl; [|reflexivity].
  destruct ((slice_lo (snd r1) (ncols data) <=? j)%nat
            && (j <? slice_lo (snd r1) (ncols data)
                     + slice_len (snd r1) (ncols data))%nat) eqn:R1;
    simpl; [|reflexivity].
  apply andb_true_iff in R0. destruct R0 as [R0a R0b].
  apply andb_true_iff in R1. destruct R1 as [R1a R1b].
  apply Nat.leb_le in R0a, R1a. apply Nat.ltb_lt in R0b, R1b.
  rewrite px_getitem; [|exact Hw|simpl; lia|simpl; lia].
  simpl fst. simpl snd. reflexivity.
Qed.

(** C4. With [crop='maintain_size'], for every image, every valid origin
    (whole or fractional, counted from either edge), every axis set and
    every interpolation order, [set_center] returns an array of the shape
    of its input.  On the whole-pixel path the result is the input
    translated by [center - origin] on the active axes: cells moved past
    a bound are dropped without error and the cells newly exposed are
    zero. *)
Theorem set_center_maintain_size (data : image T)
    (origin : option Q * option Q) (axes : bool * bool) (order : nat) :
  shift_keeps_shape ->
  wf data = true ->
  valid_coordinate (nrows data) (if fst axes then fst origin else None) ->
  valid_coordinate (ncols data) (if snd axes then snd origin else None) ->
  let p0 := preprocess (nrows data) order (fst origin) in
  let p1 := preprocess (ncols data) order (snd origin) in
  let delta0 := whole_delta (fst (center_of data)) (active (fst axes) p0) in
  let delta1 := whole_delta (snd (center_of data)) (active (snd axes) p1) in
  exists out,
    set_center data origin "maintain_size" axes order = Ok out
    /\ wf (val out) = true
    /\ shape (val out) = shape data
    /\ (effective_order p0 p1 order = 0%nat ->
        forall i j, (i < nrows data)%nat -> (j < ncols data)%nat ->
          px (val out) i j = translated data delta0 delta1 i j).
Proof.
  intros Hs Hw Hv0 Hv1 p0 p1 delta0 delta1.
  unfold set_center. fold p0 p1. simpl String.eqb.
  destruct (negb (effective_order p0 p1 order =? 0)%nat) eqn:Eo.
  - (* fractional shift *)
    eexists. split; [reflexivity|].
    destruct (shape_shifted_crop data
                (fractional_delta (fst (center_of data)) (active (fst axes) p0),
                 fractional_delta (snd (center_of data)) (active (snd axes) p1))
                (effective_order p0 p1 order) Hs Hw) as [Hw' Hs'].
    split; [exact Hw'|]. split; [exact Hs'|].
    intros E. rewrite E in Eo. discriminate.
  - (* whole-pixel shift *)
    pose proof (active_valid _ order _ _ Hv0) as W0. fold p0 in W0.
    pose proof (active_valid _ order _ _ Hv1) as W1. fold p1 in W1.
    destruct (whole_pixel_shift data _ _ Hw W0 W1) as [out [E [Hwo [Hso Hpx]]]].
    cbv zeta in E. rewrite E. simpl.
    eexists. split; [reflexivity|]. simpl.
    split; [exact Hwo|]. split; [exact Hso|].
    intros _. exact Hpx.
Qed.

End MaintainSizeTheorem.

(** The whole-pixel shift honours the contract of the shift collaborator. *)
Lemma shift_whole_pixels_keeps_shape {T} `{Pixel T} (a : image T)
    (delta : Q * Q) (order : nat) :
  wf a = true ->
  wf (shift_whole_pixels a delta order) = true
  /\ shape (shift_whole_pixels a delta order) = shape a.
Proof.
  intros Hw. unfold shift_whole_pixels.
  match goal with
  | |- context [setitem ?z ?d ?v] => destruct (setitem z d v) as [out|e] eqn:E
  end.
  - apply setitem_shape in E;
      [|apply wf_zeros_like|apply wf_getitem; exact Hw].
    destruct E as [Hwo Hso]. split; [exact Hwo|].
    rewrite Hso. apply shape_zeros_like.
  - split; [exact Hw|reflexivity].
Qed.

Lemma Z_shift_keeps_shape : @shift_keeps_shape Z Z_pixel Z_numerics.
Proof. intros a delta order Hw. apply shift_whole_pixels_keeps_shape, Hw. Qed.

Lemma set_center_maintain_size_witness :
  exists out,
    set_center image3x3 (Some 0%Q, Some (-1 # 1)%Q) "maintain_size" (true, true) 3
    = Ok out
    /\ wf (val out) = true
    /\ shape (val out) = shape image3x3
    /\ (effective_order (preprocess 3 3 (Some 0%Q)) (preprocess 3 3 (Some (-1 # 1)%Q)) 3
        = 0%nat ->
        forall i j, (i < 3)%nat -> (j < 3)%nat ->
          px (val out) i j = translated image3x3 1 (-1) i j).
Proof.
  apply (set_center_maintain_size image3x3 (Some 0%Q, Some (-1 # 1)%Q)
           (true, true) 3 Z_shift_keeps_shape).
  - reflexivity.
  - simpl. unfold Qle, Qlt. simpl. lia.
  - simpl. unfold Qle, Qlt. simpl. lia.
Defined.

(** ** [set_center] with a whole-pixel origin *)

Section WholeOrigin.
Context {T : Type} `{Pixel T} `{Numerics T}.

Lemma preprocess_whole_origin (n order : nat) (z : option Z) :
  let p := preprocess n order (option_map inject_Z z) in
  Qzero_bool (subpixel_of p) = true
  /\ match z with
     | Some z => exists ao, p = Some ao /\ o ao = absolute n z
                            /\ o_ ao = Z.of_nat n - 1 - absolute n z
     | None => p = None
     end.
Proof.
  destruct z as [z|]; cbv zeta; unfold option_map.
  - destruct (preprocess_whole n order z) as [ao [E [Ho [Ho_ Hs]]]].
    rewrite E. simpl. split; [exact Hs|]. exists ao. auto.
  - split; reflexivity.
Qed.

Lemma valid_region_slice_whole (n order : nat) (in_axes : bool) (z : option Z) :
  valid_region_slice (active in_axes (preprocess n order (option_map inject_Z z)))
  = symmetric_slice n (whole_active in_axes z).
Proof.
  destruct (preprocess_whole_origin n order z) as [_ Hp].
  unfold active, whole_active. destruct in_axes; [|reflexivity].
  destruct z as [z|].
  - destruct Hp as [ao [-> [Ho Ho_]]]. simpl. unfold near_edge.
    rewrite Ho, Ho_. reflexivity.
  - rewrite Hp. reflexivity.
Qed.

Lemma maintain_data_pad_whole (n order : nat) (in_axes : bool) (z : option Z) :
  let pad := maintain_data_pad
               (active in_axes (preprocess n order (option_map inject_Z z))) in
  0 <= fst pad /\ 0 <= snd pad
  /\ Z.to_nat (fst pad) = pad_offset n (whole_active in_axes z)
  /\ Z.to_nat (snd pad) = pad_after n (whole_active in_axes z).
Proof.
  destruct (preprocess_whole_origin n order z) as [_ Hp].
  unfold active, whole_active. destruct in_axes; [|simpl; lia].
  destruct z as [z|].
  - destruct Hp as [ao [-> [Ho Ho_]]]. simpl. unfold far_edge.
    rewrite Ho, Ho_. repeat split; lia.
  - rewrite Hp. simpl. lia.
Qed.

Lemma whole_delta_whole (n order : nat) (c : Z) (in_axes : bool) (z : option Z) :
  whole_delta c (active in_axes (preprocess n order (option_map inject_Z z)))
  = match whole_active in_axes z with
    | Some z => c - absolute n z
    | None => 0
    end.
Proof.
  destruct (preprocess_whole_origin n order z) as [_ Hp].
  unfold active, whole_active. destruct in_axes; [|reflexivity].
  destruct z as [z|].
  - destruct Hp as [ao [-> [Ho Ho_]]]. simpl. rewrite Ho. reflexivity.
  - rewrite Hp. reflexivity.
Qed.

Lemma within_whole (n order : nat) (in_axes : bool) (z : option Z) :
  inside n (whole_active in_axes z) ->
  within n (active in_axes (preprocess n order (option_map inject_Z z))).
Proof.
  destruct (preprocess_whole_origin n order z) as [_ Hp].
  unfold active, whole_active. destruct in_axes; [|intros _; exact I].
  destruct z as [z|].
  - destruct Hp as [ao [-> [Ho Ho_]]]. simpl. rewrite Ho. lia.
  - rewrite Hp. intros _. exact I.
Qed.

Lemma effective_order_whole_origin (data : image T) (zo : option Z * option Z)
    (order : nat) :
  effective_order (preprocess (nrows data) order (fst (whole_origin zo)))
                  (preprocess (ncols data) order (snd (whole_origin zo))) order
  = 0%nat.
Proof.
  apply effective_order_whole; apply preprocess_whole_origin.
Qed.

(** With a whole-pixel origin, [maintain_size] takes the whole-pixel path. *)
Lemma maintain_size_whole (data : image T) (zo : option Z * option Z)
    (axes : bool * bool) (order : nat) :
  let p0 := preprocess (nrows data) order (option_map inject_Z (fst zo)) in
  let p1 := preprocess (ncols data) order (option_map inject_Z (snd zo)) in
  let r0 := whole_pixel_regions (nrows data) (fst (center_of data))
              (active (fst axes) p0) in
  let r1 := whole_pixel_regions (ncols data) (snd (center_of data))
              (active (snd axes) p1) in
  set_center data (whole_origin zo) "maintain_size" axes order
  = (out <- setitem (zeros_like data) (snd r0, snd r1)
                    (getitem data (fst r0, fst r1)) ;;
     Ok (fresh out)).
Proof.
  unfold set_center. rewrite effective_order_whole_origin. reflexivity.
Qed.

(** With a whole-pixel origin, [valid_region] is a slice of the input. *)
Lemma valid_region_whole (data : image T) (zo : option Z * option Z)
    (axes : bool * bool) (order : nat) :
  set_center data (whole_origin zo) "valid_region" axes order
  = Ok (fresh (getitem data
                 (symmetric_slice (nrows data) (whole_active (fst axes) (fst zo)),
                  symmetric_slice (ncols data) (whole_active (snd axes) (snd zo))))).
Proof.
  unfold set_center. rewrite effective_order_whole_origin. simpl.
  rewrite !valid_region_slice_whole. reflexivity.
Qed.

(** With a whole-pixel origin, [maintain_data] is a zero padding of the
    input. *)
Lemma maintain_data_whole (data : image T) (zo : option Z * option Z)
    (axes : bool * bool) (order : nat) :
  set_center data (whole_origin zo) "maintain_data" axes order
  = Ok (fresh (pad_zeros
                 (pad_offset (nrows data) (whole_active (fst axes) (fst zo)))
                 (pad_after (nrows data) (whole_active (fst axes) (fst zo)))
                 (pad_offset (ncols data) (whole_active (snd axes) (snd zo)))
                 (pad_after (ncols data) (whole_active (snd axes) (snd zo)))
                 data)).
Proof.
  unfold set_center. rewrite effective_order_whole_origin. simpl.
  destruct (maintain_data_pad_whole (nrows data) order (fst axes) (fst zo))
    as [A0 [B0 [C0 D0]]].
  destruct (maintain_data_pad_whole (ncols data) order (snd axes) (snd zo))
    as [A1 [B1 [C1 D1]]].
  unfold np_pad.
  destruct (maintain_data_pad (active (fst axes) _)) as [b0 a0].
  destruct (maintain_data_pad (active (snd axes) _)) as [b1 a1].
  simpl in *.
  destruct (Z.ltb_spec b0 0); [lia|]. destruct (Z.ltb_spec a0 0); [lia|].
  destruct (Z.ltb_spec b1 0); [lia|]. destruct (Z.ltb_spec a1 0); [lia|].
  simpl. rewrite C0, D0, C1, D1. reflexivity.
Qed.

End WholeOrigin.

Section CropPolicies.
Context {T : Type} `{Pixel T} `{Numerics T}.

Lemma symmetric_slice_inside (n : nat) (z : option Z) :
  inside n z ->
  slice_lo (symmetric_slice n z) n = crop_offset n z
  /\ slice_len (symmetric_slice n z) n = cropped_length n z.
Proof.
  destruct z as [z|].
  - unfold inside, symmetric_slice, crop_offset, cropped_length, near_edge.
    set (a := absolute n z). intros Hin.
    rewrite slice_of_lo, slice_of_len by lia. split; f_equal; lia.
  - intros _. simpl. rewrite slice_all_len. split; reflexivity.
Qed.

Lemma padded_length_sum (n : nat) (z : option Z) :
  (pad_offset n z + n + pad_after n z)%nat = padded_length n z.
Proof.
  destruct z as [z|]; [|simpl; lia].
  unfold pad_offset, pad_after, padded_length, far_edge.
  set (a := absolute n z). lia.
Qed.

(** C5. With [crop='valid_region'] and a whole-pixel origin, [set_center]
    returns on each active axis exactly the slice
    [[origin-d : origin+d+1]] of the input, [d = min(origin, mirror)],
    [mirror = shape-1-origin] (the other axes are taken whole): the
    output is a contiguous block of the input, no larger than the input
    on any axis, held in a buffer of its own. For an origin inside the
    image the block has [2d+1] cells on an active axis and starts at
    [origin-d]. *)
Theorem set_center_valid_region (data : image T) (zo : option Z * option Z)
    (axes : bool * bool) (order : nat) :
  wf data = true ->
  let z0 := whole_active (fst axes) (fst zo) in
  let z1 := whole_active (snd axes) (snd zo) in
  exists out,
    set_center data (whole_origin zo) "valid_region" axes order = Ok out
    /\ val out = getitem data (symmetric_slice (nrows data) z0,
                              symmetric_slice (ncols data) z1)
    /\ buf out = FreshBuffer
    /\ (nrows (val out) <= nrows data)%nat
    /\ (ncols (val out) <= ncols data)%nat
    /\ (inside (nrows data) z0 -> inside (ncols data) z1 ->
        shape (val out)
        = (cropped_length (nrows data) z0, cropped_length (ncols data) z1)
        /\ forall i j,
             (i < cropped_length (nrows data) z0)%nat ->
             (j < cropped_length (ncols data) z1)%nat ->
             px (val out) i j
             = px data (crop_offset (nrows data) z0 + i)
                       (crop_offset (ncols data) z1 + j)).
Proof.
  intros Hw z0 z1. rewrite valid_region_whole. fold z0 z1.
  eexists. split; [reflexivity|]. simpl val.
  split; [reflexivity|]. split; [reflexivity|].
  split; [rewrite nrows_getitem; apply slice_len_le|].
  split; [rewrite ncols_getitem; apply slice_len_le|].
  intros I0 I1.
  destruct (symmetric_slice_inside _ _ I0) as [L0 N0].
  destruct (symmetric_slice_inside _ _ I1) as [L1 N1].
  split.
  - rewrite shape_getitem. simpl. rewrite N0, N1. reflexivity.
  - intros i j Hi Hj. rewrite px_getitem; simpl.
    + rewrite L0, L1. reflexivity.
    + exact Hw.
    + rewrite N0. exact Hi.
    + rewrite N1. exact Hj.
Qed.

(** C6. With [crop='maintain_data'] and a whole-pixel origin, [set_center]
    returns an array at least as large as the input on each axis (equal
    on the axes that are not active), in which the whole input sits
    unmodified at the pad offset [d - origin], [d = max(origin, mirror)],
    and every other cell is zero. *)
Theorem set_center_maintain_data (data : image T) (zo : option Z * option Z)
    (axes : bool * bool) (order : nat) :
  wf data = true ->
  let z0 := whole_active (fst axes) (fst zo) in
  let z1 := whole_active (snd axes) (snd zo) in
  let b0 := pad_offset (nrows data) z0 in
  let b1 := pad_offset (ncols data) z1 in
  exists out,
    set_center data (whole_origin zo) "maintain_data" axes order = Ok out
    /\ wf (val out) = true
    /\ buf out = FreshBuffer
    /\ shape (val out)
       = (padded_length (nrows data) z0, padded_length (ncols data) z1)
    /\ (nrows data <= nrows (val out))%nat
    /\ (ncols data <= ncols (val out))%nat
    /\ (z0 = None -> nrows (val out) = nrows data)
    /\ (z1 = None -> ncols (val out) = ncols data)
    /\ (forall i j, (i < nrows data)%nat -> (j < ncols data)%nat ->
          px (val out) (b0 + i) (b1 + j) = px data i j)
    /\ (forall i j,
          (i < b0 \/ b0 + nrows data <= i \/ j < b1 \/ b1 + ncols data <= j)%nat ->
          px (val out) i j = zero).
Proof.
  intros Hw z0 z1 b0 b1. rewrite maintain_data_whole. fold z0 z1 b0 b1.
  eexists. split; [reflexivity|]. simpl val.
  split; [apply wf_pad_zeros; exact Hw|]. split; [reflexivity|].
  pose proof (shape_pad_zeros b0 (pad_after (nrows data) z0)
                b1 (pad_after (ncols data) z1) data) as Hs.
  unfold b0, b1 in Hs. rewrite !padded_length_sum in Hs. fold b0 b1 in Hs.
  split; [exact Hs|].
  set (padded := pad_zeros b0 (pad_after (nrows data) z0)
                           b1 (pad_after (ncols data) z1) data) in *.
  assert (N0 : nrows padded = padded_length (nrows data) z0)
    by exact (f_equal fst Hs).
  assert (N1 : ncols padded = padded_length (ncols data) z1)
    by exact (f_equal snd Hs).
  pose proof (padded_length_sum (nrows data) z0) as P0.
  pose proof (padded_length_sum (ncols data) z1) as P1.
  split; [rewrite N0; lia|]. split; [rewrite N1; lia|].
  split; [intros E; rewrite N0, E; reflexivity|].
  split; [intros E; rewrite N1, E; reflexivity|].
  unfold padded. split.
  - intros i j Hi Hj. rewrite px_pad_zeros by exact Hw.
    destruct (Nat.leb_spec b0 (b0 + i)); [|lia].
    destruct (Nat.ltb_spec (b0 + i) (b0 + nrows data)); [|lia].
    destruct (Nat.leb_spec b1 (b1 + j)); [|lia].
    destruct (Nat.ltb_spec (b1 + j) (b1 + ncols data)); [|lia].
    simpl. f_equal; lia.
  - intros i j Hout. rewrite px_pad_zeros by exact Hw.
    destruct (Nat.leb_spec b0 i); destruct (Nat.ltb_spec i (b0 + nrows data));
      destruct (Nat.leb_spec b1 j); destruct (Nat.ltb_spec j (b1 + ncols data));
      simpl; try reflexivity; lia.
Qed.

End CropPolicies.

Section OddOutput.
Context {T : Type} `{Pixel T} `{Numerics T}.

Lemma cropped_axis (n : nat) (z : Z) :
  inside n (Some z) ->
  let d := near_edge n (absolute n z) in
  0 <= d
  /\ Z.of_nat (cropped_length n (Some z)) = 2 * d + 1
  /\ Z.of_nat (crop_offset n (Some z)) + d = absolute n z.
Proof.
  unfold inside, cropped_length, crop_offset, near_edge.
  set (a := absolute n z). intros Hin. cbv zeta. lia.
Qed.

Lemma padded_axis (n : nat) (z : Z) :
  let d := far_edge n (absolute n z) in
  0 <= d
  /\ Z.of_nat (padded_length n (Some z)) = 2 * d + 1
  /\ Z.of_nat (pad_offset n (Some z)) + absolute n z = d.
Proof.
  unfold padded_length, pad_offset, far_edge.
  set (a := absolute n z). cbv zeta. lia.
Qed.

Lemma centre_of_odd (d : Z) : (2 * d + 1 - 1) / 2 = d.
Proof. replace (2 * d + 1 - 1) with (d * 2) by lia. apply Z.div_mul. lia. Qed.

(** C10 (as amended). With a whole-pixel origin, under [maintain_data] for
    any origin, and under [valid_region] for an origin inside the image on
    the active axes, the output has [2d+1] cells on each active axis
    ([d] the distance from the origin to the farther, resp. nearer, edge):
    its centre index [(length-1)//2] is [d], the index at which the origin
    lands, with [d] cells on either side; when the origin is a cell of the
    input, that cell is the centre cell of the output. *)
Theorem set_center_origin_at_center (data : image T) (zo : option Z * option Z)
    (axes : bool * bool) (order : nat) (crop : string) :
  wf data = true ->
  let z0 := whole_active (fst axes) (fst zo) in
  let z1 := whole_active (snd axes) (snd zo) in
  (crop = "valid_region"%string /\ inside (nrows data) z0 /\ inside (ncols data) z1)
  \/ crop = "maintain_data"%string ->
  exists out,
    set_center data (whole_origin zo) crop axes order = Ok out
    /\ (forall z, z0 = Some z ->
          let d := edge_distance crop (nrows data) (absolute (nrows data) z) in
          0 <= d
          /\ Z.of_nat (nrows (val out)) = 2 * d + 1
          /\ fst (center_of (val out)) = d
          /\ landing_index crop (nrows data) z = d)
    /\ (forall z, z1 = Some z ->
          let d := edge_distance crop (ncols data) (absolute (ncols data) z) in
          0 <= d
          /\ Z.of_nat (ncols (val out)) = 2 * d + 1
          /\ snd (center_of (val out)) = d
          /\ landing_index crop (ncols data) z = d)
    /\ (forall za zb, z0 = Some za -> z1 = Some zb ->
          inside (nrows data) z0 -> inside (ncols data) z1 ->
          px (val out) (Z.to_nat (fst (center_of (val out))))
                       (Z.to_nat (snd (center_of (val out))))
          = px data (Z.to_nat (absolute (nrows data) za))
                    (Z.to_nat (absolute (ncols data) zb))).
Proof.
  intros Hw z0 z1 [[-> [I0 I1]]| ->].
  - (* valid_region *)
    rewrite valid_region_whole. fold z0 z1.
    eexists. split; [reflexivity|]. simpl val.
    destruct (symmetric_slice_inside _ _ I0) as [L0 N0].
    destruct (symmetric_slice_inside _ _ I1) as [L1 N1].
    set (out := getitem data _).
    assert (R : nrows out = cropped_length (nrows data) z0)
      by (unfold out; rewrite nrows_getitem; exact N0).
    assert (C : ncols out = cropped_length (ncols data) z1)
      by (unfold out; rewrite ncols_getitem; exact N1).
    assert (A0 : forall z, z0 = Some z ->
              let d := near_edge (nrows data) (absolute (nrows data) z) in
              0 <= d /\ Z.of_nat (nrows out) = 2 * d + 1
              /\ fst (center_of out) = d
              /\ absolute (nrows data) z
                 - Z.of_nat (crop_offset (nrows data) (Some z)) = d).
    { intros z E d. rewrite E in I0, R.
      destruct (cropped_axis _ _ I0) as [D0 [D1 D2]]. fold d in D0, D1, D2.
      change (fst (center_of out)) with ((Z.of_nat (nrows out) - 1) / 2).
      rewrite R, D1, (centre_of_odd d). lia. }
    assert (A1 : forall z, z1 = Some z ->
              let d := near_edge (ncols data) (absolute (ncols data) z) in
              0 <= d /\ Z.of_nat (ncols out) = 2 * d + 1
              /\ snd (center_of out) = d
              /\ absolute (ncols data) z
                 - Z.of_nat (crop_offset (ncols data) (Some z)) = d).
    { intros z E d. rewrite E in I1, C.
      destruct (cropped_axis _ _ I1) as [D0 [D1 D2]]. fold d in D0, D1, D2.
      change (snd (center_of out)) with ((Z.of_nat (ncols out) - 1) / 2).
      rewrite C, D1, (centre_of_odd d). lia. }
    split; [exact A0|]. split; [exact A1|].
    intros za zb E0 E1 _ _.
    destruct (A0 za E0) as [P0 [P1 [P2 P3]]].
    destruct (A1 zb E1) as [Q0 [Q1 [Q2 Q3]]].
    rewrite P2, Q2. unfold out. rewrite px_getitem; simpl fst; simpl snd.
    + rewrite L0, L1, E0, E1. f_equal; lia.
    + exact Hw.
    + rewrite N0, <- R. lia.
    + rewrite N1, <- C. lia.
  - (* maintain_data *)
    rewrite maintain_data_whole. fold z0 z1.
    eexists. split; [reflexivity|]. simpl val.
    set (out := pad_zeros _ _ _ _ data).
    pose proof (shape_pad_zeros (pad_offset (nrows data) z0)
                  (pad_after (nrows data) z0) (pad_offset (ncols data) z1)
                  (pad_after (ncols data) z1) data) as Hs.
    rewrite !padded_length_sum in Hs. fold out in Hs.
    assert (R : nrows out = padded_length (nrows data) z0)
      by exact (f_equal fst Hs).
    assert (C : ncols out = padded_length (ncols data) z1)
      by exact (f_equal snd Hs).
    assert (A0 : forall z, z0 = Some z ->
              let d := far_edge (nrows data) (absolute (nrows data) z) in
              0 <= d /\ Z.of_nat (nrows out) = 2 * d + 1
              /\ fst (center_of out) = d
              /\ Z.of_nat (pad_offset (nrows data) (Some z))
                 + absolute (nrows data) z = d).
    { intros z E d. rewrite E in R.
      destruct (padded_axis (nrows data) z) as [D0 [D1 D2]].
      fold d in D0, D1, D2.
      change (fst (center_of out)) with ((Z.of_nat (nrows out) - 1) / 2).
      rewrite R, D1, (centre_of_odd d). lia. }
    assert (A1 : forall z, z1 = Some z ->
              let d := far_edge (ncols data) (absolute (ncols data) z) in
              0 <= d /\ Z.of_nat (ncols out) = 2 * d + 1
              /\ snd (center_of out) = d
              /\ Z.of_nat (pad_offset (ncols data) (Some z))
                 + absolute (ncols data) z = d).
    { intros z E d. rewrite E in C.
      destruct (padded_axis (ncols data) z) as [D0 [D1 D2]].
      fold d in D0, D1, D2.
      change (snd (center_of out)) with ((Z.of_nat (ncols out) - 1) / 2).
      rewrite C, D1, (centre_of_odd d). lia. }
    split; [exact A0|]. split; [exact A1|].
    intros za zb E0 E1 I0 I1.
    destruct (A0 za E0) as [P0 [P1 [P2 P3]]].
    destruct (A1 zb E1) as [Q0 [Q1 [Q2 Q3]]].
    rewrite P2, Q2. unfold out. rewrite px_pad_zeros by exact Hw.
    rewrite E0 in *. rewrite E1 in *. unfold inside in I0, I1.
    set (b0 := pad_offset (nrows data) (Some za)) in *.
    set (b1 := pad_offset (ncols data) (Some zb)) in *.
    set (d0 := far_edge (nrows data) (absolute (nrows data) za)) in *.
    set (d1 := far_edge (ncols data) (absolute (ncols data) zb)) in *.
    destruct (Nat.leb_spec b0 (Z.to_nat d0)); [|lia].
    destruct (Nat.ltb_spec (Z.to_nat d0) (b0 + nrows data)); [|lia].
    destruct (Nat.leb_spec b1 (Z.to_nat d1)); [|lia].
    destruct (Nat.ltb_spec (Z.to_nat d1) (b1 + ncols data)); [|lia].
    simpl. f_equal; lia.
Qed.

End OddOutput.

Section NoOp.
Context {T : Type} `{Pixel T} `{Numerics T}.

Lemma getitem_identity (a : image T) (s : slice * slice) :
  wf a = true ->
  slice_lo (fst s) (nrows a) = 0%nat -> slice_len (fst s) (nrows a) = nrows a ->
  slice_lo (snd s) (ncols a) = 0%nat -> slice_len (snd s) (ncols a) = ncols a ->
  getitem a s = a.
Proof.
  intros Hw L0 N0 L1 N1. apply image_ext.
  - apply wf_getitem, Hw.
  - exact Hw.
  - rewrite shape_getitem, N0, N1. reflexivity.
  - intros i j Hi Hj. rewrite nrows_getitem in Hi. rewrite ncols_getitem in Hj.
    rewrite px_getitem by assumption. rewrite L0, L1. reflexivity.
Qed.

Lemma pad_zeros_none (a : image T) : wf a = true -> pad_zeros 0 0 0 0 a = a.
Proof.
  intros Hw. apply image_ext.
  - apply wf_pad_zeros, Hw.
  - exact Hw.
  - rewrite shape_pad_zeros. unfold shape. f_equal; lia.
  - intros i j Hi Hj.
    pose proof (shape_pad_zeros 0 0 0 0 a) as Hs.
    assert (N0 : nrows (pad_zeros 0 0 0 0 a) = (0 + nrows a + 0)%nat)
      by exact (f_equal fst Hs).
    assert (N1 : ncols (pad_zeros 0 0 0 0 a) = (0 + ncols a + 0)%nat)
      by exact (f_equal snd Hs).
    rewrite N0 in Hi. rewrite N1 in Hj.
    rewrite px_pad_zeros by exact Hw.
    destruct (Nat.ltb_spec i (0 + nrows a)); [|lia].
    destruct (Nat.ltb_spec j (0 + ncols a)); [|lia].
    simpl. rewrite !Nat.sub_0_r. reflexivity.
Qed.

Lemma translated_zero (a : image T) (i j : nat) :
  (i < nrows a)%nat -> (j < ncols a)%nat -> translated a 0 0 i j = px a i j.
Proof.
  intros Hi Hj. unfold translated, source_index. rewrite !Z.sub_0_r.
  destruct (Z.leb_spec 0 (Z.of_nat i)); [|lia].
  destruct (Z.ltb_spec (Z.of_nat i) (Z.of_nat (nrows a))); [|lia].
  destruct (Z.leb_spec 0 (Z.of_nat j)); [|lia].
  destruct (Z.ltb_spec (Z.of_nat j) (Z.of_nat (ncols a))); [|lia].
  simpl. rewrite !Nat2Z.id. reflexivity.
Qed.

(** The centre index of an axis of odd length [n] is [n // 2], at distance
    [n // 2] from both edges. *)
Lemma odd_axis (n : nat) (in_axes : bool) :
  Z.odd (Z.of_nat n) = true ->
  let z := whole_active in_axes (Some (Z.of_nat n / 2)) in
  inside n z
  /\ crop_offset n z = 0%nat /\ cropped_length n z = n
  /\ pad_offset n z = 0%nat /\ pad_after n z = 0%nat
  /\ match z with
     | Some z => (Z.of_nat n - 1) / 2 - absolute n z
     | None => 0
     end = 0.
Proof.
  intros Ho. pose proof (Zmod_odd (Z.of_nat n)) as Hm. rewrite Ho in Hm.
  pose proof (Z.div_mod (Z.of_nat n) 2 ltac:(lia)) as Hd. rewrite Hm in Hd.
  assert (Hc : (Z.of_nat n - 1) / 2 = Z.of_nat n / 2).
  { replace (Z.of_nat n - 1) with (Z.of_nat n / 2 * 2) by lia.
    apply Z.div_mul. lia. }
  destruct in_axes; cbv [whole_active]; cbv zeta;
    [|simpl; repeat split; lia].
  unfold inside, crop_offset, cropped_length, pad_offset, pad_after,
    near_edge, far_edge, absolute.
  set (h := Z.of_nat n / 2) in *.
  destruct (Z.ltb_spec h 0); repeat split; lia.
Qed.

(** C9. On an image with an odd number of rows and an odd number of
    columns (in particular an odd-sized square one), [set_center] with the
    origin returned by [find_origin_by_center_of_image] returns the input
    image, under each of the three crop policies (and for any axis set and
    any interpolation order). *)
Theorem set_center_image_center_noop (data : image T) (crop : string)
    (axes : bool * bool) (order : nat) :
  wf data = true ->
  Z.odd (Z.of_nat (nrows data)) = true ->
  Z.odd (Z.of_nat (ncols data)) = true ->
  crop_policy crop ->
  let origin := find_origin_by_center_of_image data in
  exists out,
    set_center data (Some (fst origin), Some (snd origin)) crop axes order
    = Ok out
    /\ val out = data.
Proof.
  intros Hw O0 O1 Hc origin.
  set (zo := (Some (Z.of_nat (nrows data) / 2), Some (Z.of_nat (ncols data) / 2))).
  change (Some (fst origin), Some (snd origin)) with (whole_origin zo).
  destruct (odd_axis (nrows data) (fst axes) O0) as [I0 [C0 [L0 [P0 [A0 D0]]]]].
  destruct (odd_axis (ncols data) (snd axes) O1) as [I1 [C1 [L1 [P1 [A1 D1]]]]].
  destruct Hc as [->|[->| ->]].
  - (* maintain_size *)
    rewrite maintain_size_whole. cbv zeta.
    destruct (whole_pixel_shift data _ _ Hw
                (within_whole (nrows data) order (fst axes) (fst zo) I0)
                (within_whole (ncols data) order (snd axes) (snd zo) I1))
      as [out [E [Hwo [Hso Hpx]]]].
    cbv zeta in E. rewrite E. simpl. eexists. split; [reflexivity|]. simpl.
    apply image_ext; [exact Hwo|exact Hw|exact Hso|].
    intros i j Hi Hj.
    assert (N0 : nrows out = nrows data) by exact (f_equal fst Hso).
    assert (N1 : ncols out = ncols data) by exact (f_equal snd Hso).
    rewrite N0 in Hi. rewrite N1 in Hj.
    rewrite Hpx by assumption. rewrite !whole_delta_whole.
    unfold center_of. simpl fst. simpl snd.
    simpl fst in D0. simpl snd in D1. rewrite D0, D1.
    apply translated_zero; assumption.
  - (* valid_region *)
    rewrite valid_region_whole. eexists. split; [reflexivity|]. simpl val.
    destruct (symmetric_slice_inside _ _ I0) as [SL0 SN0].
    destruct (symmetric_slice_inside _ _ I1) as [SL1 SN1].
    apply getitem_identity; simpl fst; simpl snd; try assumption; congruence.
  - (* maintain_data *)
    rewrite maintain_data_whole. eexists. split; [reflexivity|]. simpl val.
    simpl fst in *. simpl snd in *. rewrite P0, A0, P1, A1.
    apply pad_zeros_none, Hw.
Qed.

End NoOp.

(** ** [find_origin_by_slice] *)

Section SliceOrigin.
Context {T : Type} `{Pixel T} `{Numerics T}.

(** [find_origin_by_slice] in terms of the two fits. *)
Lemma find_origin_by_slice_unfold (IM : image T) (slice_width : Z)
    (radial_range : Z * Z) (axis : list Z) :
  let fit0 := vertical_fit IM radial_range slice_width in
  let fit1 := horizontal_fit IM radial_range slice_width in
  find_origin_by_slice IM slice_width radial_range axis
  = if requested 0 axis && negb (success fit0)
    then Raise (RuntimeError "fit failure: axis = 0, zero shift set" fit0)
    else if requested 1 axis && negb (success fit1)
    then Raise (RuntimeError "fit failure: axis = 1, zero shift set" fit1)
    else Ok (inject_Z (Z.of_nat (nrows IM) / 2) - axis_offset 0 axis fit0,
             inject_Z (Z.of_nat (ncols IM) / 2) - axis_offset 1 axis fit1)%Q.
Proof.
  unfold find_origin_by_slice, vertical_fit, horizontal_fit, axis_offset,
    slice_offset, requested.
  destruct (axis_slices IM radial_range slice_width) as [[[top bottom] lft] rgt].
  cbv zeta.
  destruct (existsb (Z.eqb 0) axis); destruct (existsb (Z.eqb 1) axis);
    destruct (success (minimize_align top bottom));
    destruct (success (minimize_align lft rgt)); reflexivity.
Qed.

(** C3 (as amended). When the minimizer converges on every requested axis,
    [find_origin_by_slice] returns [(r2 - rowOffset, c2 - colOffset)] with
    [r2 = rows // 2] and [c2 = cols // 2], where the offset of a requested
    axis is [-s/2] for its minimizing shift [s]; an axis that is not
    requested keeps offset [0], so that its coordinate is [rows // 2]
    (resp. [cols // 2]). *)
Theorem find_origin_by_slice_origin (IM : image T) (slice_width : Z)
    (radial_range : Z * Z) (axis : list Z) :
  let fit0 := vertical_fit IM radial_range slice_width in
  let fit1 := horizontal_fit IM radial_range slice_width in
  let r2 := Z.of_nat (nrows IM) / 2 in
  let c2 := Z.of_nat (ncols IM) / 2 in
  (requested 0 axis = true -> success fit0 = true) ->
  (requested 1 axis = true -> success fit1 = true) ->
  find_origin_by_slice IM slice_width radial_range axis
  = Ok (inject_Z r2 - axis_offset 0 axis fit0,
        inject_Z c2 - axis_offset 1 axis fit1)%Q
  /\ (requested 0 axis = true -> axis_offset 0 axis fit0 = (- x fit0 / 2)%Q)
  /\ (requested 1 axis = true -> axis_offset 1 axis fit1 = (- x fit1 / 2)%Q)
  /\ (requested 0 axis = false ->
      (inject_Z r2 - axis_offset 0 axis fit0 == inject_Z r2)%Q)
  /\ (requested 1 axis = false ->
      (inject_Z c2 - axis_offset 1 axis fit1 == inject_Z c2)%Q).
Proof.
  intros fit0 fit1 r2 c2 S0 S1.
  rewrite find_origin_by_slice_unfold. fold fit0 fit1 r2 c2.
  unfold axis_offset.
  destruct (requested 0 axis); destruct (requested 1 axis);
    try rewrite (S0 eq_refl); try rewrite (S1 eq_refl); simpl;
    repeat split; intros; try discriminate; try reflexivity;
    unfold Qeq; simpl; lia.
Qed.

(** C8. [find_origin_by_slice] raises exactly when the minimizer reports
    failure on a requested axis. It then returns no origin, and the error
    is the [RuntimeError] that names the failing axis (the first one, the
    vertical axis being fitted first) and carries the minimizer's result;
    no offset is defaulted. *)
Theorem find_origin_by_slice_failure (IM : image T) (slice_width : Z)
    (radial_range : Z * Z) (axis : list Z) :
  let fit0 := vertical_fit IM radial_range slice_width in
  let fit1 := horizontal_fit IM radial_range slice_width in
  let res := find_origin_by_slice IM slice_width radial_range axis in
  ((exists e, res = Raise e)
   <-> (requested 0 axis = true /\ success fit0 = false)
       \/ (requested 1 axis = true /\ success fit1 = false))
  /\ (forall e, res = Raise e ->
        (requested 0 axis = true /\ success fit0 = false
         /\ e = RuntimeError "fit failure: axis = 0, zero shift set" fit0)
        \/ (requested 1 axis = true /\ success fit1 = false
            /\ e = RuntimeError "fit failure: axis = 1, zero shift set" fit1))
  /\ (forall rc, res = Ok rc ->
        (requested 0 axis = true -> success fit0 = true)
        /\ (requested 1 axis = true -> success fit1 = true)).
Proof.
  intros fit0 fit1 res. unfold res.
  rewrite find_origin_by_slice_unfold. fold fit0 fit1.
  destruct (requested 0 axis); destruct (requested 1 axis);
    destruct (success fit0); destruct (success fit1); simpl;
    (split; [split; [intros [e E]|intros D]
            |split; [intros e E|intros rc E]]);
    try discriminate E;
    try (destruct D as [[? ?]|[? ?]]; discriminate);
    try (eexists; reflexivity);
    try (injection E as <-);
    try (left; repeat split; reflexivity);
    try (right; repeat split; reflexivity);
    try (split; intros; (reflexivity || discriminate)).
Qed.

End SliceOrigin.

(** ** The squaring step of [center_image] *)

Ltac slice_arith :=
  unfold slice_len, slice_hi, slice_lo, slice_of, slice_to, slice_from,
    slice_all, clip_index; cbn [start stop]; cbv beta iota;
  repeat match goal with
         | |- context [?a <? ?b] => destruct (Z.ltb_spec a b)
         end;
  try lia.

Section Squaring.
Context {T : Type} `{Pixel T}.

Lemma even_or_odd_mod (n : Z) : n mod 2 = 0 \/ n mod 2 = 1.
Proof. pose proof (Z.mod_pos_bound n 2). lia. Qed.

(** With [odd_size=True], and also whenever the image has more rows than
    columns, the squaring step yields a square image. *)
Lemma trim_image_square (IM : image T) (odd_size : bool) :
  odd_size = true \/ (ncols IM < nrows IM)%nat ->
  nrows (trim_image IM odd_size true) = ncols (trim_image IM odd_size true).
Proof.
  intros Hc. unfold trim_image.
  set (IM1 := if odd_size && (Z.of_nat (ncols IM) mod 2 =? 0)
              then getitem IM (slice_all, slice_to (-1)) else IM).
  assert (R1 : nrows IM1 = nrows IM).
  { unfold IM1. destruct (odd_size && _); [|reflexivity].
    rewrite nrows_getitem. apply slice_all_len. }
  assert (C1 : (odd_size = true /\ (ncols IM1 = 0%nat \/ Z.of_nat (ncols IM1) mod 2 = 1))
               \/ (odd_size = false /\ ncols IM1 = ncols IM)).
  { unfold IM1. destruct odd_size; [left|right; split; reflexivity].
    split; [reflexivity|]. simpl andb.
    destruct (Z.eqb_spec (Z.of_nat (ncols IM) mod 2) 0) as [E|E].
    - rewrite ncols_getitem. simpl snd.
      destruct (ncols IM) as [|c] eqn:Ec; [left; reflexivity|right].
      replace (slice_len (slice_to (-1)) (S c)) with c by (slice_arith).
      replace (Z.of_nat (S c)) with (Z.of_nat c + 1) in E by lia.
      pose proof (Z.div_mod (Z.of_nat c + 1) 2 ltac:(lia)) as D1.
      pose proof (Z.div_mod (Z.of_nat c) 2 ltac:(lia)) as D2.
      pose proof (even_or_odd_mod (Z.of_nat c)). lia.
    - right. pose proof (even_or_odd_mod (Z.of_nat (ncols IM))). lia. }
  cbv zeta. simpl andb.
  destruct (Z.eqb_spec (Z.of_nat (nrows IM1)) (Z.of_nat (ncols IM1))) as [E|E];
    simpl negb; cbv iota; [lia|].
  destruct (Z.gtb_spec (Z.of_nat (nrows IM1)) (Z.of_nat (ncols IM1))) as [G|G].
  - (* rows > cols *)
    set (diff := Z.of_nat (nrows IM1) - Z.of_nat (ncols IM1)).
    pose proof (Z.div_mod diff 2 ltac:(lia)) as Hd.
    pose proof (even_or_odd_mod diff) as Hm.
    set (IM2 := if diff / 2 >? 0
                then getitem IM1 (slice_of (diff / 2) (- (diff / 2)), slice_all)
                else IM1).
    assert (R2 : Z.of_nat (nrows IM2) = Z.of_nat (nrows IM1) - 2 * (diff / 2)
                 /\ ncols IM2 = ncols IM1).
    { unfold IM2. destruct (Z.gtb_spec (diff / 2) 0) as [P|P].
      - rewrite nrows_getitem, ncols_getitem. simpl fst. simpl snd.
        rewrite slice_all_len. split; [|reflexivity].
        rewrite slice_of_neg_len by (unfold diff in *; lia).
        unfold diff in *. lia.
      - split; [|reflexivity]. unfold diff in *. lia. }
    destruct R2 as [R2 C2].
    destruct (Z.eqb_spec (diff mod 2) 0) as [M|M]; simpl negb; cbv iota.
    + unfold diff in *. lia.
    + rewrite nrows_getitem, ncols_getitem. simpl fst. simpl snd.
      rewrite slice_all_len.
      rewrite (slice_to_neg_len _ 1) by (unfold diff in *; lia).
      unfold diff in *. lia.
  - (* rows < cols: only with odd_size *)
    destruct C1 as [[-> [C0|Codd]]|[-> C1]]; [lia| |lia]. simpl andb.
    pose proof (even_or_odd_mod (Z.of_nat (nrows IM1))) as Hm.
    pose proof (Z.div_mod (Z.of_nat (nrows IM1)) 2 ltac:(lia)) as Dr.
    pose proof (Z.div_mod (Z.of_nat (ncols IM1)) 2 ltac:(lia)) as Dc.
    destruct (Z.eqb_spec (Z.of_nat (nrows IM1) mod 2) 0) as [M|M].
    + (* even number of rows: drop one *)
      set (xs := (Z.of_nat (ncols IM1) - (Z.of_nat (nrows IM1) - 1)) / 2).
      assert (X : 2 * xs = Z.of_nat (ncols IM1) - (Z.of_nat (nrows IM1) - 1)).
      { unfold xs.
        replace (Z.of_nat (ncols IM1) - (Z.of_nat (nrows IM1) - 1))
          with ((Z.of_nat (ncols IM1) / 2 - Z.of_nat (nrows IM1) / 2 + 1) * 2)
          by lia.
        rewrite Z.div_mul by lia. lia. }
      rewrite nrows_getitem, ncols_getitem. simpl fst. simpl snd.
      rewrite nrows_getitem, ncols_getitem. simpl fst. simpl snd.
      rewrite !slice_all_len.
      destruct (nrows IM1) as [|r] eqn:Er.
      * replace (slice_len (slice_to (-1)) 0) with 0%nat by slice_arith.
        symmetry. slice_arith.
      * rewrite (slice_to_neg_len _ 1) by lia.
        rewrite slice_of_neg_len by lia. lia.
    + (* odd number of rows *)
      set (xs := (Z.of_nat (ncols IM1) - Z.of_nat (nrows IM1)) / 2).
      assert (X : 2 * xs = Z.of_nat (ncols IM1) - Z.of_nat (nrows IM1)).
      { unfold xs.
        replace (Z.of_nat (ncols IM1) - Z.of_nat (nrows IM1))
          with ((Z.of_nat (ncols IM1) / 2 - Z.of_nat (nrows IM1) / 2) * 2)
          by lia.
        rewrite Z.div_mul by lia. lia. }
      rewrite nrows_getitem, ncols_getitem. simpl fst. simpl snd.
      rewrite slice_all_len. rewrite slice_of_neg_len by lia. lia.
Qed.

End Squaring.

(** ** Axes that take no part in the centering *)

Section InactiveAxes.
Context {T : Type} `{Pixel T} `{Numerics T}.

Lemma active_none (in_axes : bool) : active in_axes None = None.
Proof. destruct in_axes; reflexivity. Qed.

Lemma np_pad_shape (a out : image T) (pad : (Z * Z) * (Z * Z)) :
  np_pad a pad = Ok out ->
  nrows out = (Z.to_nat (fst (fst pad)) + nrows a + Z.to_nat (snd (fst pad)))%nat
  /\ ncols out = (Z.to_nat (fst (snd pad)) + ncols a + Z.to_nat (snd (snd pad)))%nat.
Proof.
  destruct pad as [[b0 a0] [b1 a1]]. unfold np_pad.
  destruct (_ || _); [discriminate|]. intros E. injection E as <-.
  pose proof (shape_pad_zeros (Z.to_nat b0) (Z.to_nat a0) (Z.to_nat b1)
                (Z.to_nat a1) a) as Hs.
  split; [exact (f_equal fst Hs)|exact (f_equal snd Hs)].
Qed.

Lemma maintain_data_pad_nonneg (act : option axis_origin) :
  0 <= fst (maintain_data_pad act) /\ 0 <= snd (maintain_data_pad act).
Proof. destruct act as [ao|]; simpl; lia. Qed.

Lemma np_pad_maintain_data (a : image T) (act0 act1 : option axis_origin) :
  exists out, np_pad a (maintain_data_pad act0, maintain_data_pad act1) = Ok out.
Proof.
  destruct (maintain_data_pad_nonneg act0) as [A0 B0].
  destruct (maintain_data_pad_nonneg act1) as [A1 B1].
  unfold np_pad.
  destruct (maintain_data_pad act0) as [b0 a0].
  destruct (maintain_data_pad act1) as [b1 a1]. simpl in *.
  destruct (Z.ltb_spec b0 0); [lia|]. destruct (Z.ltb_spec a0 0); [lia|].
  destruct (Z.ltb_spec b1 0); [lia|]. destruct (Z.ltb_spec a1 0); [lia|].
  simpl. eexists. reflexivity.
Qed.

(** Shape after the sub-pixel shift [shift(np.pad(data, 1), ...)[:-1, :-1]]. *)
Lemma shifted_shape (data : image T) (delta : Q * Q) (order : nat) :
  shift_keeps_shape -> wf data = true ->
  let shifted := getitem (shift (pad_zeros 1 1 1 1 data) delta order)
                         (slice_to (-1), slice_to (-1)) in
  nrows shifted = S (nrows data) /\ ncols shifted = S (ncols data).
Proof.
  intros Hs Hw shifted.
  destruct (Hs (pad_zeros 1 1 1 1 data) delta order
               (wf_pad_zeros 1 1 1 1 data Hw)) as [_ Hs'].
  rewrite shape_pad_zeros in Hs'.
  assert (N0 : nrows (shift (pad_zeros 1 1 1 1 data) delta order)
               = (1 + nrows data + 1)%nat) by exact (f_equal fst Hs').
  assert (N1 : ncols (shift (pad_zeros 1 1 1 1 data) delta order)
               = (1 + ncols data + 1)%nat) by exact (f_equal snd Hs').
  unfold shifted. rewrite nrows_getitem, ncols_getitem. simpl fst. simpl snd.
  rewrite N0, N1. rewrite !(slice_to_neg_len _ 1) by lia. lia.
Qed.

(** An axis whose origin coordinate is [None] keeps its length, under every
    crop policy and every interpolation order (columns). *)
Lemma none_axis_keeps_ncols (data : image T) (c0 : option Q) (crop : string)
    (axes : bool * bool) (order : nat) (out : ndarray T) :
  shift_keeps_shape -> wf data = true ->
  set_center data (c0, None) crop axes order = Ok out ->
  ncols (val out) = ncols data.
Proof.
  intros Hs Hw. unfold set_center. cbn [fst snd preprocess subpixel_of].
  set (p0 := preprocess (nrows data) order c0).
  set (order' := effective_order p0 None order).
  rewrite !active_none.
  destruct (crop =? "maintain_size")%string.
  - destruct (negb (order' =? 0)%nat).
    + intros E. injection E as <-.
      destruct (shape_shifted_crop data
                  (fractional_delta (fst (center_of data)) (active (fst axes) p0),
                   fractional_delta (snd (center_of data)) None) order' Hs Hw)
        as [_ Hsh].
      exact (f_equal snd Hsh).
    + destruct (setitem _ _ _) as [o'|e] eqn:E; [|discriminate].
      intros E'. injection E' as <-. simpl val.
      apply setitem_shape in E;
        [|apply wf_zeros_like|apply wf_getitem; exact Hw].
      destruct E as [_ E]. exact (f_equal snd E).
  - destruct (negb (order' =? 0)%nat).
    + destruct (shifted_shape data (- subpixel_of p0, - 0)%Q order' Hs Hw)
        as [_ N1].
      cbn [defraction fst snd]. rewrite active_none.
      destruct (crop =? "valid_region")%string.
      * intros E. injection E as <-. simpl.
        rewrite slice_all_len.
        cbv zeta in N1. rewrite ncols_getitem in N1. simpl snd in N1.
        rewrite N1. rewrite slice_from_len by lia. lia.
      * destruct (crop =? "maintain_data")%string; [|discriminate].
        destruct (np_pad _ _) as [o'|e] eqn:E; [|discriminate].
        intros E'. injection E' as <-. simpl val.
        apply np_pad_shape in E. destruct E as [_ E]. rewrite E. simpl.
        cbv zeta in N1. rewrite ncols_getitem in N1. simpl snd in N1.
        rewrite N1. rewrite slice_from_len by lia. lia.
    + rewrite active_none.
      destruct (crop =? "valid_region")%string.
      * intros E. injection E as <-. simpl. apply slice_all_len.
      * destruct (crop =? "maintain_data")%string; [|discriminate].
        destruct (np_pad _ _) as [o'|e] eqn:E; [|discriminate].
        intros E'. injection E' as <-. simpl val.
        apply np_pad_shape in E. destruct E as [_ E]. rewrite E. simpl. lia.
Qed.

End InactiveAxes.

Section InactiveRows.
Context {T : Type} `{Pixel T} `{Numerics T}.

(** The same for the rows. *)
Lemma none_axis_keeps_nrows (data : image T) (c1 : option Q) (crop : string)
    (axes : bool * bool) (order : nat) (out : ndarray T) :
  shift_keeps_shape -> wf data = true ->
  set_center data (None, c1) crop axes order = Ok out ->
  nrows (val out) = nrows data.
Proof.
  intros Hs Hw. unfold set_center. cbn [fst snd preprocess subpixel_of].
  set (p1 := preprocess (ncols data) order c1).
  set (order' := effective_order None p1 order).
  rewrite !active_none.
  destruct (crop =? "maintain_size")%string.
  - destruct (negb (order' =? 0)%nat).
    + intros E. injection E as <-.
      destruct (shape_shifted_crop data
                  (fractional_delta (fst (center_of data)) None,
                   fractional_delta (snd (center_of data)) (active (snd axes) p1))
                  order' Hs Hw) as [_ Hsh].
      exact (f_equal fst Hsh).
    + destruct (setitem _ _ _) as [o'|e] eqn:E; [|discriminate].
      intros E'. injection E' as <-. simpl val.
      apply setitem_shape in E;
        [|apply wf_zeros_like|apply wf_getitem; exact Hw].
      destruct E as [_ E]. rewrite (f_equal fst E : nrows o' = _).
      exact (f_equal fst (shape_zeros_like data)).
  - destruct (negb (order' =? 0)%nat).
    + destruct (shifted_shape data (- 0, - subpixel_of p1)%Q order' Hs Hw)
        as [N0 _].
      cbn [defraction fst snd]. rewrite active_none.
      cbv zeta in N0.
      destruct (crop =? "valid_region")%string.
      * intros E. injection E as <-. simpl val.
        rewrite nrows_getitem. simpl fst. rewrite slice_all_len.
        rewrite nrows_getitem. simpl fst.
        rewrite N0. rewrite slice_from_len by lia. lia.
      * destruct (crop =? "maintain_data")%string; [|discriminate].
        destruct (np_pad _ _) as [o'|e] eqn:E; [|discriminate].
        intros E'. injection E' as <-. simpl val.
        apply np_pad_shape in E. destruct E as [E _]. rewrite E. simpl.
        rewrite nrows_getitem. simpl fst.
        rewrite N0. rewrite slice_from_len by lia. lia.
    + rewrite active_none.
      destruct (crop =? "valid_region")%string.
      * intros E. injection E as <-. simpl val.
        rewrite nrows_getitem. apply slice_all_len.
      * destruct (crop =? "maintain_data")%string; [|discriminate].
        destruct (np_pad _ _) as [o'|e] eqn:E; [|discriminate].
        intros E'. injection E' as <-. simpl val.
        apply np_pad_shape in E. destruct E as [E _]. rewrite E. simpl. lia.
Qed.

(** C1. An axis left out of [axes] is not passed through unchanged: when
    its origin coordinate has a fractional part and the order is not 0,
    [set_center] with [crop='maintain_data'] and [axes=0] returns an array
    with one column more than the input (a [None] coordinate, in contrast,
    keeps the length of its axis: [none_axis_keeps_ncols],
    [none_axis_keeps_nrows]). *)
Theorem set_center_excluded_axis_resized (data : image T)
    (origin : option Q * option Q) (order : nat) :
  shift_keeps_shape -> wf data = true ->
  order <> 0%nat ->
  Qzero_bool (subpixel_of (preprocess (ncols data) order (snd origin))) = false ->
  exists out,
    set_center data origin "maintain_data" (true, false) order = Ok out
    /\ ncols (val out) = S (ncols data).
Proof.
  intros Hs Hw Ho Hf. unfold set_center. cbn [fst snd].
  set (p0 := preprocess (nrows data) order (fst origin)).
  set (p1 := preprocess (ncols data) order (snd origin)) in *.
  assert (Eo : effective_order p0 p1 order = order).
  { unfold effective_order. rewrite Hf, andb_false_r. reflexivity. }
  rewrite Eo. simpl String.eqb. cbv iota.
  destruct (Nat.eqb_spec order 0) as [|_]; [contradiction|]. simpl negb. cbv iota.
  destruct (shifted_shape data (- subpixel_of p0, - subpixel_of p1)%Q order Hs Hw)
    as [_ N1].
  cbv zeta in N1.
  assert (D1 : fst (defraction "maintain_data" p1) = slice_all).
  { destruct p1 as [ao|]; [|discriminate Hf]. simpl in Hf.
    unfold defraction. rewrite Hf. reflexivity. }
  rewrite D1. cbn [active].
  destruct (np_pad_maintain_data
              (val (view (view (fresh (shift (pad_zeros 1 1 1 1 data)
                                         (- subpixel_of p0, - subpixel_of p1)%Q
                                         order))
                               (slice_to (-1), slice_to (-1)))
                         (fst (defraction "maintain_data" p0), slice_all)))
              (snd (defraction "maintain_data" p0)) None) as [out E].
  rewrite E. simpl. eexists. split; [reflexivity|]. simpl val.
  apply np_pad_shape in E. destruct E as [_ E]. rewrite E. simpl.
  rewrite slice_all_len. rewrite ncols_getitem in N1. simpl snd in N1.
  rewrite N1. lia.
Qed.

(** C7. The order is not forced to 0 by the active axes alone: with
    [axes=0], an origin whose row coordinate is whole but whose column
    coordinate (on the axis left out of [axes]) has a fractional part
    keeps the order it was called with, and [set_center] takes the
    interpolating path (a call to the shift collaborator with a zero
    shift on the excluded axis). *)
Theorem order_kept_for_excluded_axis (data : image T)
    (origin : option Q * option Q) (order : nat) :
  let p0 := preprocess (nrows data) order (fst origin) in
  let p1 := preprocess (ncols data) order (snd origin) in
  order <> 0%nat ->
  Qzero_bool (subpixel_of p0) = true ->
  Qzero_bool (subpixel_of p1) = false ->
  effective_order p0 p1 order = order
  /\ set_center data origin "maintain_size" (true, false) order
     = Ok (view (fresh (shift (pad_zeros 1 1 1 1 data)
                              (fractional_delta (fst (center_of data)) p0, 0%Q)
                              order))
                (slice_of 1 (-1), slice_of 1 (-1))).
Proof.
  intros p0 p1 Ho _ Hf.
  assert (Eo : effective_order p0 p1 order = order).
  { unfold effective_order. rewrite Hf, andb_false_r. reflexivity. }
  split; [exact Eo|].
  unfold set_center. fold p0 p1. rewrite Eo. simpl String.eqb. cbv iota.
  destruct (Nat.eqb_spec order 0) as [|_]; [contradiction|]. reflexivity.
Qed.

End InactiveRows.

(** ** The squaring step without [odd_size] *)

(** With [odd_size=False], an image with one column more than rows loses
    all its columns in the squaring step ([IM[:, 0:-0]] is empty). *)
Lemma trim_image_one_extra_column {T} `{Pixel T} (IM : image T) :
  ncols IM = S (nrows IM) ->
  shape (trim_image IM false true) = (nrows IM, 0%nat).
Proof.
  intros Hc. unfold trim_image. simpl andb. cbv iota zeta.
  destruct (Z.eqb_spec (Z.of_nat (nrows IM)) (Z.of_nat (ncols IM))); [lia|].
  destruct (Z.gtb_spec (Z.of_nat (nrows IM)) (Z.of_nat (ncols IM))); [lia|].
  simpl negb. cbv iota.
  replace ((Z.of_nat (ncols IM) - Z.of_nat (nrows IM)) / 2) with 0
    by (rewrite Hc; replace (Z.of_nat (S (nrows IM)) - Z.of_nat (nrows IM)) with 1
          by lia; reflexivity).
  rewrite shape_getitem. simpl fst. simpl snd. rewrite slice_all_len.
  f_equal. slice_arith.
Qed.

(** C2. [center_image] with [square=True] does not always return a square
    image: with [odd_size=False], the 2 x 3 image is returned with shape
    (2, 0), both by the squaring step and by the whole call. *)
Theorem center_image_square_not_square :
  shape (trim_image image2x3 false true) = (2%nat, 0%nat)
  /\ exists out,
       center_image image2x3 (Coordinates (Some 1%Q, Some 1%Q)) false true
         (true, true) "maintain_size" default_kwargs = Ok out
       /\ shape (val out) = (2%nat, 0%nat).
Proof.
  split; [reflexivity|]. eexists. split; vm_compute; reflexivity.
Qed.

(** ** Instances of the statements *)

Lemma find_origin_by_slice_origin_witness :
  let axis := [0; 1] in
  let off0 := axis_offset 0 axis (vertical_fit image3x3 (0, -1) 10) in
  let off1 := axis_offset 1 axis (horizontal_fit image3x3 (0, -1) 10) in
  find_origin_by_slice image3x3 10 (0, -1) axis
  = Ok (inject_Z 1 - off0, inject_Z 1 - off1)%Q.
Proof.
  apply (find_origin_by_slice_origin image3x3 10 (0, -1) [0; 1]);
    intros _; reflexivity.
Defined.

(** The centre used by [find_origin_by_slice] is not the split index of
    [axis_slices]: on a 3 x 3 image the origin is (1, 1), not (2, 2),
    whether the axes are requested (the profiles coincide, shift 0) or not. *)
Lemma find_origin_by_slice_not_split_index :
  exists r c,
    find_origin_by_slice image3x3 10 (0, -1) [0; 1] = Ok (r, c)
    /\ find_origin_by_slice image3x3 10 (0, -1) [] = Ok (1%Q, 1%Q)
    /\ (r == 1)%Q /\ (c == 1)%Q
    /\ ~ (r == inject_Z (split_index 3) - 0)%Q
    /\ ~ (c == inject_Z (split_index 3) - 0)%Q.
Proof.
  eexists. eexists. split; [vm_compute; reflexivity|].
  split; [vm_compute; reflexivity|].
  repeat split; try reflexivity; intros E; vm_compute in E; discriminate E.
Qed.

(** With the origin outside the image, [valid_region] returns an empty
    array on that axis: its length is 0, not odd. *)
Lemma valid_region_outside_is_empty :
  exists out,
    set_center image3x3 (whole_origin (Some 5, Some 1)) "valid_region"
      (true, true) 3 = Ok out
    /\ shape (val out) = (0%nat, 3%nat)
    /\ Z.odd (Z.of_nat (nrows (val out))) = false.
Proof.
  eexists. split; [vm_compute; reflexivity|]. split; reflexivity.
Qed.

Lemma set_center_valid_region_witness :
  exists out,
    set_center image3x3 (whole_origin (Some 0, Some (-1))) "valid_region"
      (true, true) 3 = Ok out
    /\ val out = getitem image3x3 (symmetric_slice 3 (Some 0),
                                  symmetric_slice 3 (Some (-1)))
    /\ buf out = FreshBuffer.
Proof.
  destruct (set_center_valid_region image3x3 (Some 0, Some (-1)) (true, true) 3
              eq_refl) as [out [E [V [B _]]]].
  exists out. split; [exact E|]. split; [exact V|exact B].
Defined.

Lemma set_center_maintain_data_witness :
  exists out,
    set_center image3x3 (whole_origin (Some 0, Some (-1))) "maintain_data"
      (true, true) 3 = Ok out
    /\ shape (val out) = (5%nat, 5%nat)
    /\ px (val out) 2 0 = 1.
Proof.
  destruct (set_center_maintain_data image3x3 (Some 0, Some (-1)) (true, true) 3
              eq_refl) as [out [E [_ [_ [S [_ [_ [_ [_ [P _]]]]]]]]]].
  exists out. split; [exact E|]. split; [exact S|].
  assert (H0 : (0 < nrows image3x3)%nat) by (unfold nrows; simpl; lia).
  assert (H1 : (0 < ncols image3x3)%nat) by (simpl; lia).
  exact (P 0%nat 0%nat H0 H1).
Defined.

Lemma set_center_origin_at_center_witness :
  exists out,
    set_center image5x3 (whole_origin (Some 1, Some 1)) "valid_region"
      (true, true) 3 = Ok out
    /\ Z.of_nat (nrows (val out)) = 2 * 1 + 1
    /\ fst (center_of (val out)) = 1.
Proof.
  destruct (set_center_origin_at_center image5x3 (Some 1, Some 1) (true, true) 3
              "valid_region" eq_refl) as [out [E [R _]]].
  - left. split; [reflexivity|].
    split; unfold nrows, inside, absolute; simpl; lia.
  - exists out. split; [exact E|].
    destruct (R 1 eq_refl) as [_ [L [C _]]].
    split; [exact L|exact C].
Defined.

Lemma set_center_image_center_noop_witness :
  exists out,
    set_center image3x3 (Some 1%Q, Some 1%Q) "valid_region" (true, true) 3
    = Ok out
    /\ val out = image3x3.
Proof.
  apply (set_center_image_center_noop image3x3 "valid_region" (true, true) 3);
    try reflexivity.
  right. left. reflexivity.
Defined.

Lemma set_center_excluded_axis_resized_witness :
  exists out,
    set_center image3x3 (Some 1%Q, Some (1 # 2)%Q) "maintain_data" (true, false) 3
    = Ok out
    /\ ncols (val out) = 4%nat.
Proof.
  apply (set_center_excluded_axis_resized image3x3 (Some 1%Q, Some (1 # 2)%Q) 3
           Z_shift_keeps_shape); [reflexivity|discriminate|reflexivity].
Defined.

Lemma order_kept_for_excluded_axis_witness :
  effective_order (preprocess 3 3 (Some 1%Q)) (preprocess 3 3 (Some (1 # 2)%Q)) 3
  = 3%nat.
Proof.
  apply (order_kept_for_excluded_axis image3x3 (Some 1%Q, Some (1 # 2)%Q) 3);
    [discriminate|reflexivity|reflexivity].
Defined.

(** ** Runs of the definitions *)

(** An origin far outside the image is refused by the whole-pixel shift: the
    negative slice bound wraps around and the assignment cannot broadcast
    (row 8 of a 5-row image: [out[0:4] = data[6:5]]). *)
Example maintain_size_far_origin_raises :
  set_center image5x3 (Some 8%Q, Some 1%Q) "maintain_size" (true, true) 3
  = Raise (ValueError "could not broadcast input array").
Proof. vm_compute. reflexivity. Qed.

(** A whole-pixel shift that moves rows and columns out of the image. *)
Example maintain_size_clips :
  exists out,
    set_center image3x3 (Some 2%Q, Some (-1 # 1)%Q) "maintain_size" (true, true) 3
    = Ok out
    /\ val out = Image [[5; 6; 0]; [8; 9; 0]; [0; 0; 0]] 3.
Proof. eexists. split; vm_compute; reflexivity. Qed.

(** With [axes=0] and a fractional column coordinate, [valid_region] removes
    a column of a 3 x 3 image. *)
Example valid_region_excluded_axis_shrinks :
  exists out,
    set_center image3x3 (Some 1%Q, Some (1 # 2)%Q) "valid_region" (true, false) 3
    = Ok out
    /\ shape (val out) = (3%nat, 2%nat).
Proof. eexists. split; vm_compute; reflexivity. Qed.

(** The profiles of [axis_slices] on a 5 x 3 image, and a failing fit. *)
Example axis_slices_5x3 :
  axis_slices image5x3 (0, 5) 2 = ([17; 11; 5], [17; 23; 29], [19; 17], [19; 21]).
Proof. reflexivity. Qed.

Example find_origin_by_slice_raises_axis0 :
  find_origin_by_slice image5x3 2 (0, 5) [0; 1]
  = Raise (RuntimeError "fit failure: axis = 0, zero shift set"
             (mkOptimizeResult false (1 # 10) "ABNORMAL_TERMINATION_IN_LNSRCH")).
Proof. vm_compute. reflexivity. Qed.

Example find_origin_image_center :
  find_origin image5x3 "image_center" default_kwargs = Ok (inject_Z 2, inject_Z 1)
  /\ find_origin image5x3 "centre" default_kwargs = Raise (KeyError "centre").
Proof. split; reflexivity. Qed.

Example center_image_odd_size_squares :
  exists out,
    center_image image2x3 (MethodName "image_center") true true (true, true)
      "maintain_size" default_kwargs = Ok out
    /\ val out = Image [[2]] 1.
Proof. eexists. split; vm_compute; reflexivity. Qed.

(** ** Errors, totality and ownership of [set_center] *)

Section SetCenterErrors.
Context {T : Type} `{Pixel T} `{Numerics T}.

(** X1. Any crop option other than the three policies is refused with a
    [ValueError] that quotes the option, whatever the other arguments. *)
Theorem set_center_invalid_crop (data : image T) (origin : option Q * option Q)
    (crop : string) (axes : bool * bool) (order : nat) :
  ~ crop_policy crop ->
  set_center data origin crop axes order
  = Raise (ValueError ("Invalid crop option " ++ quote ++ crop ++ quote ++ ".")).
Proof.
  intros Hc. unfold crop_policy in Hc. unfold set_center.
  destruct (String.eqb_spec crop "maintain_size") as [E|_]; [tauto|].
  destruct (String.eqb_spec crop "valid_region") as [E|_]; [tauto|].
  destruct (String.eqb_spec crop "maintain_data") as [E|_]; [tauto|].
  destruct (negb _); reflexivity.
Qed.


(** X3. Whatever [set_center] returns owns its data: the result is never a view
    of the input array. *)
Theorem set_center_result_is_fresh (data : image T)
    (origin : option Q * option Q) (crop : string) (axes : bool * bool)
    (order : nat) (out : ndarray T) :
  set_center data origin crop axes order = Ok out -> buf out = FreshBuffer.
Proof.
  unfold set_center.
  destruct (crop =? "maintain_size")%string.
  - destruct (negb _).
    + intros E. injection E as <-. reflexivity.
    + destruct (setitem _ _ _); [|discriminate].
      intros E. injection E as <-. reflexivity.
  - destruct (negb _).
    + destruct (crop =? "valid_region")%string.
      * intros E. injection E as <-. reflexivity.
      * destruct (crop =? "maintain_data")%string; [|discriminate].
        destruct (np_pad _ _); [|discriminate].
        intros E. injection E as <-. reflexivity.
    + destruct (crop =? "valid_region")%string.
      * intros E. injection E as <-. reflexivity.
      * destruct (crop =? "maintain_data")%string; [|discriminate].
        destruct (np_pad _ _); [|discriminate].
        intros E. injection E as <-. reflexivity.
Qed.


End SetCenterErrors.

Lemma set_center_invalid_crop_witness :
  set_center image3x3 (Some 1%Q, Some 1%Q) "symmetric" (true, true) 3
  = Raise (ValueError ("Invalid crop option " ++ quote ++ "symmetric" ++ quote ++ ".")).
Proof.
  apply (set_center_invalid_crop image3x3 (Some 1%Q, Some 1%Q) "symmetric"
           (true, true) 3).
  intros [E|[E|E]]; discriminate E.
Defined.


Lemma set_center_result_is_fresh_witness :
  buf (NdArray image3x3 FreshBuffer) = FreshBuffer.
Proof.
  apply (set_center_result_is_fresh image3x3 (Some 1%Q, Some 1%Q) "valid_region"
           (true, true) 3 (NdArray image3x3 FreshBuffer)).
  vm_compute. reflexivity.
Defined.


(** ** Centering at the centre index of the image *)

Section CentreIndex.
Context {T : Type} `{Pixel T} `{Numerics T}.

Lemma centre_index_absolute (n : nat) :
  absolute n ((Z.of_nat n - 1) / 2) = (Z.of_nat n - 1) / 2.
Proof.
  unfold absolute. destruct n as [|n].
  - reflexivity.
  - assert (0 <= (Z.of_nat (S n) - 1) / 2) by (apply Z.div_pos; lia).
    destruct (Z.ltb_spec ((Z.of_nat (S n) - 1) / 2) 0); [lia|reflexivity].
Qed.

Lemma centre_index_bounds (n : nat) :
  (0 < n)%nat ->
  let c := (Z.of_nat n - 1) / 2 in
  0 <= c /\ 2 * c + 1 <= Z.of_nat n /\ Z.of_nat n <= 2 * c + 2.
Proof.
  intros Hn c. unfold c.
  pose proof (Z.div_mod (Z.of_nat n - 1) 2 ltac:(lia)) as Hd.
  pose proof (Z.mod_pos_bound (Z.of_nat n - 1) 2 ltac:(lia)) as Hm.
  lia.
Qed.

Lemma odd_trim_centre (n : nat) :
  (0 < n)%nat -> Z.of_nat (odd_trim n) = 2 * ((Z.of_nat n - 1) / 2) + 1.
Proof.
  intros Hn. unfold odd_trim.
  pose proof (Z.div_mod (Z.of_nat n - 1) 2 ltac:(lia)) as Hd.
  pose proof (Z.mod_pos_bound (Z.of_nat n - 1) 2 ltac:(lia)) as Hm.
  destruct (Nat.even n) eqn:E.
  - apply Nat.even_spec in E. destruct E as [k ->]. lia.
  - assert (O : Nat.odd n = true) by (rewrite <- Nat.negb_even, E; reflexivity).
    apply Nat.odd_spec in O. destruct O as [k ->]. lia.
Qed.

(** The regions of a whole-pixel shift by zero are the whole axis. *)
Lemma whole_pixel_regions_zero (n : nat) (c : Z) (act : option axis_origin) :
  whole_delta c act = 0 ->
  let r := whole_pixel_regions n c act in
  slice_lo (fst r) n = 0%nat /\ slice_len (fst r) n = n
  /\ slice_lo (snd r) n = 0%nat /\ slice_len (snd r) n = n.
Proof.
  destruct act as [ao|]; simpl.
  - intros E. rewrite E. simpl (Z.max 0 0). simpl (- 0).
    simpl (Z.max 0 0). rewrite Z.sub_0_r.
    rewrite !slice_of_lo, !slice_of_len by lia.
    repeat split; lia.
  - intros _. rewrite slice_all_len. unfold slice_lo; simpl. auto.
Qed.

Lemma whole_pixel_noop (data : image T) (act0 act1 : option axis_origin) :
  wf data = true ->
  whole_delta (fst (center_of data)) act0 = 0 ->
  whole_delta (snd (center_of data)) act1 = 0 ->
  let r0 := whole_pixel_regions (nrows data) (fst (center_of data)) act0 in
  let r1 := whole_pixel_regions (ncols data) (snd (center_of data)) act1 in
  setitem (zeros_like data) (snd r0, snd r1) (getitem data (fst r0, fst r1))
  = Ok data.
Proof.
  intros Hw E0 E1 r0 r1.
  destruct (whole_pixel_regions_zero (nrows data) _ _ E0) as [A0 [B0 [C0 D0]]].
  destruct (whole_pixel_regions_zero (ncols data) _ _ E1) as [A1 [B1 [C1 D1]]].
  fold r0 in A0, B0, C0, D0. fold r1 in A1, B1, C1, D1.
  rewrite (getitem_identity data (fst r0, fst r1) Hw A0 B0 A1 B1).
  assert (Z0 : nrows (zeros_like data) = nrows data)
    by (unfold nrows, zeros_like; simpl; apply repeat_length).
  assert (Z1 : ncols (zeros_like data) = ncols data) by reflexivity.
  destruct (setitem_exact (zeros_like data) (snd r0, snd r1) data
              (wf_zeros_like data) Hw) as [out [E [Hwo [Hso Hpx]]]].
  { rewrite Z0. simpl. symmetry. exact D0. }
  { rewrite Z1. simpl. symmetry. exact D1. }
  rewrite E. f_equal.
  rewrite shape_zeros_like in Hso.
  apply image_ext; [exact Hwo|exact Hw|exact Hso|].
  intros i j Hi Hj.
  assert (N0 : nrows out = nrows data) by exact (f_equal fst Hso).
  assert (N1 : ncols out = ncols data) by exact (f_equal snd Hso).
  rewrite N0 in Hi. rewrite N1 in Hj.
  rewrite Hpx by lia. unfold in_region. rewrite Z0, Z1. simpl fst. simpl snd.
  rewrite C0, D0, C1, D1.
  destruct (Nat.ltb_spec i (0 + nrows data)); [|lia].
  destruct (Nat.ltb_spec j (0 + ncols data)); [|lia].
  simpl. rewrite !Nat.sub_0_r. reflexivity.
Qed.

(** X7. With [maintain_size], an origin at the centre index
    [(shape - 1) // 2] of the image leaves every image as it is, whatever
    the parity of its sides, the axis set and the order. *)
Theorem set_center_at_center_of_is_identity (data : image T)
    (axes : bool * bool) (order : nat) :
  wf data = true ->
  let c := center_of data in
  exists out,
    set_center data (whole_origin (Some (fst c), Some (snd c))) "maintain_size"
      axes order = Ok out
    /\ val out = data.
Proof.
  intros Hw c. rewrite maintain_size_whole. cbv zeta.
  rewrite whole_pixel_noop.
  - simpl. eexists. split; reflexivity.
  - exact Hw.
  - rewrite whole_delta_whole. unfold c, center_of. simpl fst.
    destruct (fst axes); simpl; [|reflexivity].
    rewrite centre_index_absolute. lia.
  - rewrite whole_delta_whole. unfold c, center_of. simpl snd. simpl fst.
    destruct (snd axes); simpl; [|reflexivity].
    rewrite centre_index_absolute. lia.
Qed.

End CentreIndex.

Section CentreIndexCrops.
Context {T : Type} `{Pixel T} `{Numerics T}.

Lemma parity_cases (n : nat) :
  (Nat.even n = true /\ exists k, n = (2 * k)%nat)
  \/ (Nat.even n = false /\ exists k, n = (2 * k + 1)%nat).
Proof.
  destruct (Nat.even n) eqn:E.
  - left. split; [reflexivity|]. apply Nat.even_spec. exact E.
  - right. split; [reflexivity|]. apply Nat.odd_spec.
    rewrite <- Nat.negb_even, E. reflexivity.
Qed.

Lemma crop_at_centre (n : nat) (in_axes : bool) :
  (0 < n)%nat ->
  let z := whole_active in_axes (Some ((Z.of_nat n - 1) / 2)) in
  inside n z /\ crop_offset n z = 0%nat
  /\ cropped_length n z = if in_axes then odd_trim n else n.
Proof.
  intros Hn. destruct in_axes; cbv [whole_active]; cbv zeta;
    [|simpl; repeat split; lia].
  pose proof (odd_trim_centre n Hn) as Ht.
  destruct (centre_index_bounds n Hn) as [C0 [C1 C2]].
  unfold inside, crop_offset, cropped_length, near_edge.
  rewrite centre_index_absolute.
  set (c := (Z.of_nat n - 1) / 2) in *.
  repeat split; lia.
Qed.

Lemma pad_at_centre (n : nat) (in_axes : bool) :
  let z := whole_active in_axes (Some ((Z.of_nat n - 1) / 2)) in
  pad_offset n z = (if in_axes then even_pad n else 0%nat)
  /\ pad_after n z = 0%nat.
Proof.
  destruct in_axes; cbv [whole_active]; cbv zeta; [|simpl; split; reflexivity].
  unfold pad_offset, pad_after, far_edge, even_pad.
  rewrite centre_index_absolute.
  pose proof (Z.div_mod (Z.of_nat n - 1) 2 ltac:(lia)) as Hd.
  pose proof (Z.mod_pos_bound (Z.of_nat n - 1) 2 ltac:(lia)) as Hm.
  set (c := (Z.of_nat n - 1) / 2) in *.
  destruct (parity_cases n) as [[-> [k ->]]|[-> [k ->]]]; split; lia.
Qed.

(** X8. With [valid_region], an origin at the centre index [(shape - 1) // 2] of
    a non-empty image keeps the image, less the last row (column) when the
    number of rows (columns) is even and the axis is active: the result
    starts at the first cell of the input and is odd-sized on the active
    axes. *)
Theorem set_center_valid_region_at_center_of (data : image T)
    (axes : bool * bool) (order : nat) :
  wf data = true -> (0 < nrows data)%nat -> (0 < ncols data)%nat ->
  let c := center_of data in
  exists out,
    set_center data (whole_origin (Some (fst c), Some (snd c))) "valid_region"
      axes order = Ok out
    /\ shape (val out)
       = (if fst axes then odd_trim (nrows data) else nrows data,
          if snd axes then odd_trim (ncols data) else ncols data)
    /\ forall i j, (i < nrows (val out))%nat -> (j < ncols (val out))%nat ->
         px (val out) i j = px data i j.
Proof.
  intros Hw H0' H1' c. rewrite valid_region_whole.
  eexists. split; [reflexivity|]. simpl val. unfold c, center_of. simpl fst. simpl snd.
  destruct (crop_at_centre (nrows data) (fst axes) H0') as [I0 [O0 L0]].
  destruct (crop_at_centre (ncols data) (snd axes) H1') as [I1 [O1 L1]].
  destruct (symmetric_slice_inside _ _ I0) as [SL0 SN0].
  destruct (symmetric_slice_inside _ _ I1) as [SL1 SN1].
  split.
  - rewrite shape_getitem. simpl fst. simpl snd.
    rewrite SN0, SN1, L0, L1. reflexivity.
  - intros i j Hi Hj. rewrite nrows_getitem in Hi. rewrite ncols_getitem in Hj.
    rewrite px_getitem by assumption. simpl fst. simpl snd.
    rewrite SL0, SL1, O0, O1. reflexivity.
Qed.

(** X9. With [maintain_data], an origin at the centre index [(shape - 1) // 2]
    keeps the whole image and, on each active axis of even length, puts one
    row (column) of zeros in front of it, so that the result is odd-sized on
    the active axes; nothing is added behind. *)
Theorem set_center_maintain_data_at_center_of (data : image T)
    (axes : bool * bool) (order : nat) :
  wf data = true ->
  let c := center_of data in
  let e0 := if fst axes then even_pad (nrows data) else 0%nat in
  let e1 := if snd axes then even_pad (ncols data) else 0%nat in
  exists out,
    set_center data (whole_origin (Some (fst c), Some (snd c))) "maintain_data"
      axes order = Ok out
    /\ shape (val out) = ((e0 + nrows data)%nat, (e1 + ncols data)%nat)
    /\ (forall i j, (i < nrows data)%nat -> (j < ncols data)%nat ->
          px (val out) (e0 + i) (e1 + j) = px data i j)
    /\ (forall i j, (i < e0 \/ j < e1)%nat -> px (val out) i j = zero).
Proof.
  intros Hw c e0 e1. rewrite maintain_data_whole.
  eexists. split; [reflexivity|]. simpl val. unfold c, center_of. simpl fst. simpl snd.
  destruct (pad_at_centre (nrows data) (fst axes)) as [P0 A0].
  destruct (pad_at_centre (ncols data) (snd axes)) as [P1 A1].
  cbv zeta in P0, A0, P1, A1. rewrite P0, A0, P1, A1. fold e0 e1.
  split; [|split].
  - rewrite shape_pad_zeros. f_equal; lia.
  - intros i j Hi Hj. rewrite px_pad_zeros by exact Hw.
    destruct (Nat.leb_spec e0 (e0 + i)); [|lia].
    destruct (Nat.ltb_spec (e0 + i) (e0 + nrows data)); [|lia].
    destruct (Nat.leb_spec e1 (e1 + j)); [|lia].
    destruct (Nat.ltb_spec (e1 + j) (e1 + ncols data)); [|lia].
    simpl. f_equal; lia.
  - intros i j Hij. rewrite px_pad_zeros by exact Hw.
    destruct (Nat.leb_spec e0 i); destruct (Nat.ltb_spec i (e0 + nrows data));
      destruct (Nat.leb_spec e1 j); destruct (Nat.ltb_spec j (e1 + ncols data));
      simpl; try reflexivity; lia.
Qed.

End CentreIndexCrops.

Section ImageCentre.
Context {T : Type} `{Pixel T} `{Numerics T}.

Lemma half_index (n : nat) (in_axes : bool) :
  (0 < n)%nat ->
  let z := whole_active in_axes (Some (Z.of_nat n / 2)) in
  inside n z
  /\ match z with
     | Some z => (Z.of_nat n - 1) / 2 - absolute n z
     | None => 0
     end = image_center_delta in_axes n.
Proof.
  intros Hn. unfold image_center_delta.
  destruct in_axes; cbv [whole_active]; cbv zeta; [|simpl; split; [exact I|reflexivity]].
  pose proof (Z.div_mod (Z.of_nat n - 1) 2 ltac:(lia)) as Hd.
  pose proof (Z.mod_pos_bound (Z.of_nat n - 1) 2 ltac:(lia)) as Hm.
  pose proof (Z.div_mod (Z.of_nat n) 2 ltac:(lia)) as Hd'.
  pose proof (Z.mod_pos_bound (Z.of_nat n) 2 ltac:(lia)) as Hm'.
  unfold inside, absolute. simpl andb.
  set (c := (Z.of_nat n - 1) / 2) in *. set (h := Z.of_nat n / 2) in *.
  destruct (Z.ltb_spec h 0); [lia|].
  destruct (parity_cases n) as [[-> [k E]]|[-> [k E]]]; split; lia.
Qed.

(** X10. The origin of the [image_center] method is [shape // 2], the centre
    index of [set_center] only for an odd length. With [maintain_size] (on a
    non-empty image) centering on it keeps the shape and moves the content
    of each active axis of even length by one cell towards the start, the
    last row (column) becoming zero; axes of odd length are left as they
    are. *)
Theorem set_center_image_center_shift (data : image T) (axes : bool * bool)
    (order : nat) :
  wf data = true -> (0 < nrows data)%nat -> (0 < ncols data)%nat ->
  let origin := find_origin_by_center_of_image data in
  exists out,
    set_center data (Some (fst origin), Some (snd origin)) "maintain_size"
      axes order = Ok out
    /\ shape (val out) = shape data
    /\ forall i j, (i < nrows data)%nat -> (j < ncols data)%nat ->
         px (val out) i j
         = translated data (image_center_delta (fst axes) (nrows data))
                           (image_center_delta (snd axes) (ncols data)) i j.
Proof.
  intros Hw H0' H1' origin.
  set (zo := (Some (Z.of_nat (nrows data) / 2), Some (Z.of_nat (ncols data) / 2))).
  change (Some (fst origin), Some (snd origin)) with (whole_origin zo).
  destruct (half_index (nrows data) (fst axes) H0') as [I0 D0].
  destruct (half_index (ncols data) (snd axes) H1') as [I1 D1].
  rewrite maintain_size_whole. cbv zeta.
  destruct (whole_pixel_shift data _ _ Hw
              (within_whole (nrows data) order (fst axes) (fst zo) I0)
              (within_whole (ncols data) order (snd axes) (snd zo) I1))
    as [out [E [Hwo [Hso Hpx]]]].
  cbv zeta in E. rewrite E. simpl. eexists. split; [reflexivity|]. simpl val.
  split; [exact Hso|].
  intros i j Hi Hj. rewrite Hpx by assumption.
  rewrite !whole_delta_whole. unfold center_of. simpl fst. simpl snd.
  simpl fst in D0. simpl snd in D1. rewrite D0, D1. reflexivity.
Qed.

End ImageCentre.

(** ** The dispatcher [find_origin] *)

Section Dispatcher.
Context {T : Type} `{Pixel T} `{Numerics T}.

Lemma find_origin_by_slice_not_key_error (IM : image T) (slice_width : Z)
    (radial_range : Z * Z) (axis : list Z) (k : string) :
  find_origin_by_slice IM slice_width radial_range axis <> Raise (KeyError k).
Proof.
  rewrite find_origin_by_slice_unfold. cbv zeta.
  destruct (_ && _); [discriminate|]. destruct (_ && _); discriminate.
Qed.

(** X16. [find_origin] raises a [KeyError] exactly for a method name that is not
    one of the five registered names, and the error carries that name; a
    registered estimator never produces this error. *)
Theorem find_origin_key_error (IM : image T) (method : string) (kw : kwargs)
    (k : string) :
  find_origin IM method kw = Raise (KeyError k)
  <-> k = method /\ ~ known_method method.
Proof.
  unfold find_origin, func_method, lookup, known_method.
  destruct (String.eqb_spec "image_center" method) as [<-|N1].
  { split; [discriminate|]. intros [_ N]. exfalso. apply N. auto. }
  destruct (String.eqb_spec "com" method) as [<-|N2].
  { split; [discriminate|]. intros [_ N]. exfalso. apply N. auto. }
  destruct (String.eqb_spec "convolution" method) as [<-|N3].
  { split; [discriminate|]. intros [_ N]. exfalso. apply N. auto. }
  destruct (String.eqb_spec "gaussian" method) as [<-|N4].
  { split; [discriminate|]. intros [_ N]. exfalso. apply N. auto 6. }
  destruct (String.eqb_spec "slice" method) as [<-|N5].
  { split.
    - intros E. exfalso. exact (find_origin_by_slice_not_key_error _ _ _ _ _ E).
    - intros [_ N]. exfalso. apply N. auto 6. }
  split.
  - intros E. injection E as <-. split; [reflexivity|].
    intros [E|[E|[E|[E|E]]]]; subst method; congruence.
  - intros [-> _]. reflexivity.
Qed.

(** Every estimator but [slice] always returns an origin. *)
Lemma find_origin_returns (IM : image T) (method : string) (kw : kwargs) :
  known_method method -> method <> "slice"%string ->
  exists rc, find_origin IM method kw = Ok rc.
Proof.
  intros [->|[->|[->|[->| ->]]]] Hs; try (eexists; reflexivity).
  exfalso. apply Hs. reflexivity.
Qed.

End Dispatcher.

(** ** [center_image] with [odd_size=True] *)

Section OddSize.
Context {T : Type} `{Pixel T} `{Numerics T}.

Lemma wf_trim_image (IM : image T) (odd_size square : bool) :
  wf IM = true -> wf (trim_image IM odd_size square) = true.
Proof.
  intros Hw. unfold trim_image. cbv zeta.
  repeat (match goal with
          | |- context [if ?b then _ else _] => destruct b
          end; cbv beta iota zeta);
    repeat apply wf_getitem; exact Hw.
Qed.

Lemma odd_of_Z (n : nat) : Z.of_nat n mod 2 = 1 -> Nat.odd n = true.
Proof.
  intros Hm. destruct (parity_cases n) as [[_ [k ->]]|[E _]].
  - exfalso. replace (Z.of_nat (2 * k)) with (Z.of_nat k * 2) in Hm by lia.
    rewrite Z.mod_mul in Hm by lia. discriminate.
  - rewrite <- Nat.negb_even, E. reflexivity.
Qed.

(** The first step of [center_image]: with [odd_size=True] an image with at
    least one column is left with an odd number of columns. *)
Lemma drop_column_odd (IM : image T) :
  (0 < ncols IM)%nat ->
  let IM1 := if true && (Z.of_nat (ncols IM) mod 2 =? 0)
             then getitem IM (slice_all, slice_to (-1)) else IM in
  nrows IM1 = nrows IM /\ Z.of_nat (ncols IM1) mod 2 = 1 /\ (0 < ncols IM1)%nat.
Proof.
  intros Hc. simpl andb. cbv zeta.
  pose proof (even_or_odd_mod (Z.of_nat (ncols IM))) as Hm.
  destruct (Z.eqb_spec (Z.of_nat (ncols IM) mod 2) 0) as [E|E].
  - rewrite nrows_getitem, ncols_getitem. simpl fst. simpl snd.
    rewrite slice_all_len. rewrite (slice_to_neg_len _ 1) by lia.
    pose proof (Z.div_mod (Z.of_nat (ncols IM)) 2 ltac:(lia)) as D.
    assert (2 <= Z.of_nat (ncols IM)) by lia.
    split; [reflexivity|]. split; [|lia].
    replace (Z.of_nat (Z.to_nat (Z.of_nat (ncols IM) - 1)))
      with (1 + (Z.of_nat (ncols IM) / 2 - 1) * 2) by lia.
    rewrite Z.mod_add by lia. reflexivity.
  - repeat split; lia.
Qed.

(** With [odd_size=True], the trimmed image of a non-empty image has an odd
    number of columns, squared or not. *)
Lemma trim_image_odd_cols (IM : image T) (square : bool) :
  (0 < nrows IM)%nat -> (0 < ncols IM)%nat ->
  Nat.odd (ncols (trim_image IM true square)) = true.
Proof.
  intros Hr Hc. destruct square.
  2:{ unfold trim_image. destruct (drop_column_odd IM Hc) as [_ [O _]].
      cbv zeta in O. cbv zeta. simpl (false && _). cbv iota.
      apply odd_of_Z. exact O. }
  pose proof (trim_image_square IM true (or_introl eq_refl)) as Sq.
  unfold trim_image in *.
  destruct (drop_column_odd IM Hc) as [R1 [O1 P1]]. cbv zeta in R1, O1, P1.
  set (IM1 := if true && _ then _ else IM) in *.
  cbv zeta in *. simpl (true && negb _) in *.
  destruct (Z.eqb_spec (Z.of_nat (nrows IM1)) (Z.of_nat (ncols IM1))) as [E|E];
    simpl negb in *; cbv iota in *; [apply odd_of_Z; exact O1|].
  destruct (Z.gtb_spec (Z.of_nat (nrows IM1)) (Z.of_nat (ncols IM1))) as [G|G].
  - (* rows > cols: the columns are kept *)
    apply odd_of_Z.
    destruct (negb _); [rewrite ncols_getitem; simpl snd; rewrite slice_all_len|];
      (destruct (_ >? _);
       [rewrite ncols_getitem; simpl snd; rewrite slice_all_len|]; exact O1).
  - (* rows < cols: as many columns as rows are left, an odd number *)
    rewrite <- Sq. apply odd_of_Z.
    pose proof (even_or_odd_mod (Z.of_nat (nrows IM1))) as Hm.
    simpl (true && _).
    destruct (Z.eqb_spec (Z.of_nat (nrows IM1) mod 2) 0) as [M|M].
    + rewrite nrows_getitem. simpl fst. rewrite slice_all_len.
      rewrite nrows_getitem. simpl fst.
      rewrite (slice_to_neg_len _ 1) by lia.
      pose proof (Z.div_mod (Z.of_nat (nrows IM1)) 2 ltac:(lia)) as D.
      replace (Z.of_nat (Z.to_nat (Z.of_nat (nrows IM1) - 1)))
        with (1 + (Z.of_nat (nrows IM1) / 2 - 1) * 2) by lia.
      rewrite Z.mod_add by lia. reflexivity.
    + rewrite nrows_getitem. simpl fst. rewrite slice_all_len. lia.
Qed.

(** A successful [maintain_size] keeps the shape. *)
Lemma maintain_size_ok_shape (data : image T) (origin : option Q * option Q)
    (axes : bool * bool) (order : nat) (out : ndarray T) :
  shift_keeps_shape -> wf data = true ->
  set_center data origin "maintain_size" axes order = Ok out ->
  shape (val out) = shape data.
Proof.
  intros Hs Hw. unfold set_center. simpl String.eqb. cbv iota.
  destruct (negb _).
  - intros E. injection E as <-. apply shape_shifted_crop; assumption.
  - destruct (setitem _ _ _) as [o'|e] eqn:E; [|discriminate].
    intros E'. injection E' as <-. simpl val.
    apply setitem_shape in E;
      [|apply wf_zeros_like|apply wf_getitem; exact Hw].
    destruct E as [_ E]. rewrite E. apply shape_zeros_like.
Qed.

(** X14. With [odd_size=True] and the default [crop='maintain_size'], whatever
    [center_image] returns for a non-empty image has an odd number of
    columns, and with [square=True] as many rows as columns. *)
Theorem center_image_odd_size (IM : image T) (method : method_arg)
    (square : bool) (axes : bool * bool) (kw : kwargs) (out : ndarray T) :
  shift_keeps_shape -> wf IM = true ->
  (0 < nrows IM)%nat -> (0 < ncols IM)%nat ->
  center_image IM method true square axes "maintain_size" kw = Ok out ->
  Nat.odd (ncols (val out)) = true
  /\ (square = true -> nrows (val out) = ncols (val out)).
Proof.
  intros Hs Hw Hr Hc. unfold center_image.
  destruct (match method with
            | MethodName name =>
                rc <- find_origin (trim_image IM true square) name kw ;;
                Ok (Some (fst rc), Some (snd rc))
            | Coordinates origin => Ok origin
            end) as [origin|e]; [|discriminate].
  simpl bind. intros E.
  apply maintain_size_ok_shape in E; [|exact Hs|apply wf_trim_image; exact Hw].
  assert (N0 : nrows (val out) = nrows (trim_image IM true square))
    by exact (f_equal fst E).
  assert (N1 : ncols (val out) = ncols (trim_image IM true square))
    by exact (f_equal snd E).
  rewrite N0, N1. split.
  - apply trim_image_odd_cols; assumption.
  - intros ->. apply trim_image_square. left. reflexivity.
Qed.

End OddSize.

(** ** The profiles of [axis_slices] *)

Section Profiles.
Context {T : Type} `{Pixel T}.

Lemma length_sum_axis1 (a : image T) : length (sum_axis1 a) = nrows a.
Proof. unfold sum_axis1. apply length_map. Qed.

Lemma length_fold_zip (f : T -> T -> T) (rs : list (list T)) (acc : list T) :
  (forall r, In r rs -> length r = length acc) ->
  length (fold_left (zip_with f) rs acc) = length acc.
Proof.
  revert acc. induction rs as [|r rs IH]; intros acc Hr; simpl; [reflexivity|].
  assert (L : length (zip_with f acc r) = length acc).
  { rewrite length_zip_with. rewrite (Hr r (or_introl eq_refl)). lia. }
  rewrite IH; [exact L|].
  intros r' Hr'. rewrite L. apply Hr. right. exact Hr'.
Qed.

Lemma length_sum_axis0 (a : image T) :
  wf a = true -> length (sum_axis0 a) = ncols a.
Proof.
  intros Hw. unfold sum_axis0. rewrite length_fold_zip.
  - apply repeat_length.
  - intros r Hr. rewrite repeat_length. apply (proj1 (wf_rows a) Hw r Hr).
Qed.

Lemma split_index_bounds (n : nat) :
  0 <= Z.of_nat n / 2 <= split_index (Z.of_nat n)
  /\ split_index (Z.of_nat n) <= Z.of_nat n
  /\ Z.of_nat n / 2 + split_index (Z.of_nat n) = Z.of_nat n
  /\ split_index (Z.of_nat n) - Z.of_nat n mod 2 = Z.of_nat n / 2.
Proof.
  unfold split_index.
  pose proof (Z.div_mod (Z.of_nat n) 2 ltac:(lia)) as Hd.
  pose proof (Z.mod_pos_bound (Z.of_nat n) 2 ltac:(lia)) as Hm.
  assert (0 <= Z.of_nat n / 2) by (apply Z.div_pos; lia).
  lia.
Qed.

Lemma slice_to_lo (n : nat) (b : Z) : slice_lo (slice_to b) n = 0%nat.
Proof. reflexivity. Qed.

Lemma slice_to_len (n : nat) (b : Z) :
  0 <= b <= Z.of_nat n -> slice_len (slice_to b) n = Z.to_nat b.
Proof.
  intros Hb. unfold slice_len, slice_hi, slice_lo, slice_to, clip_index. simpl.
  destruct (b <? 0) eqn:E; lia.
Qed.

Lemma slice_from_lo (n : nat) (a : Z) :
  0 <= a <= Z.of_nat n -> slice_lo (slice_from a) n = Z.to_nat a.
Proof.
  intros Ha. unfold slice_lo, slice_from, clip_index. simpl.
  destruct (a <? 0) eqn:E; lia.
Qed.

(** X18. Opposite profiles have one length: the radial range cut out of the half
    height (half width, for a well-formed image) of the image, the middle
    row (column) of an odd side counted in both halves. *)
Theorem axis_slices_profile_lengths (IM : image T) (radial_range : Z * Z)
    (slice_width : Z) :
  wf IM = true ->
  let radial := slice_of (fst radial_range) (snd radial_range) in
  let r2 := Z.to_nat (split_index (Z.of_nat (nrows IM))) in
  let c2 := Z.to_nat (split_index (Z.of_nat (ncols IM))) in
  length (top_profile IM radial_range slice_width) = slice_len radial r2
  /\ length (bottom_profile IM radial_range slice_width) = slice_len radial r2
  /\ length (left_profile IM radial_range slice_width) = slice_len radial c2
  /\ length (right_profile IM radial_range slice_width) = slice_len radial c2.
Proof.
  intros Hw radial r2 c2.
  unfold top_profile, bottom_profile, left_profile, right_profile, axis_slices.
  destruct radial_range as [rmin rmax]. cbv zeta. simpl fst in *. simpl snd in *.
  fold (split_index (Z.of_nat (nrows IM))). fold (split_index (Z.of_nat (ncols IM))).
  destruct (split_index_bounds (nrows IM)) as [R0 [R1 [R2 R3]]].
  destruct (split_index_bounds (ncols IM)) as [C0 [C1 [C2 C3]]].
  rewrite R3, C3.
  rewrite !length_take, !length_rev, !length_sum_axis1.
  rewrite !length_sum_axis0 by (apply wf_getitem; exact Hw).
  rewrite !nrows_getitem, !ncols_getitem. simpl fst. simpl snd.
  rewrite !slice_to_len by lia. rewrite !slice_from_len by lia.
  fold r2 c2. fold radial.
  replace (Z.to_nat (Z.of_nat (nrows IM) - Z.of_nat (nrows IM) / 2)) with r2
    by (unfold r2; lia).
  replace (Z.to_nat (Z.of_nat (ncols IM) - Z.of_nat (ncols IM) / 2)) with c2
    by (unfold c2; lia).
  auto.
Qed.

End Profiles.

Section ProfileContent.
Context {T : Type} `{Pixel T}.

Lemma nth_sum_axis1_getitem (IM : image T) (s : slice * slice) (i : nat) :
  (i < slice_len (fst s) (nrows IM))%nat ->
  nth i (sum_axis1 (getitem IM s)) zero
  = fold_left add
      (take (snd s) (nth (slice_lo (fst s) (nrows IM) + i) (rows IM) [])) zero.
Proof.
  intros Hi. unfold sum_axis1, getitem. simpl rows.
  set (g := fun r : list T => fold_left add r zero).
  assert (L : length (take (fst s) (rows IM)) = slice_len (fst s) (nrows IM))
    by apply length_take.
  rewrite (nth_indep _ zero (g (take (snd s) [])))
    by (rewrite !length_map, L; exact Hi).
  rewrite map_nth. rewrite map_nth. unfold g. f_equal. f_equal.
  apply nth_take. exact Hi.
Qed.

(** X19. The vertical profiles run outward from the centre: entry [k] of the top
    profile is the strip sum of the row [k] (plus the start of the radial
    range) above the split row, entry [k] of the bottom profile that of the
    row as far below [rows // 2]; for an odd number of rows both start on
    the middle row. *)
Theorem axis_slices_vertical_profiles (IM : image T) (radial_range : Z * Z)
    (slice_width : Z) (k : nat) :
  let radial := slice_of (fst radial_range) (snd radial_range) in
  let r2 := Z.to_nat (split_index (Z.of_nat (nrows IM))) in
  let lo := slice_lo radial r2 in
  (k < slice_len radial r2)%nat ->
  nth k (top_profile IM radial_range slice_width) zero
  = strip_sum IM slice_width (r2 - 1 - (lo + k))
  /\ nth k (bottom_profile IM radial_range slice_width) zero
     = strip_sum IM slice_width (nrows IM / 2 + (lo + k)).
Proof.
  intros radial r2 lo Hk.
  unfold top_profile, bottom_profile, axis_slices, strip_sum.
  destruct radial_range as [rmin rmax]. cbv zeta. simpl fst in *. simpl snd in *.
  fold (split_index (Z.of_nat (nrows IM))). fold (split_index (Z.of_nat (ncols IM))).
  destruct (split_index_bounds (nrows IM)) as [R0 [R1 [R2 R3]]].
  rewrite R3. fold radial.
  pose proof (slice_lo_len_le radial r2) as B. fold lo in B.
  set (strip := slice_of _ _).
  set (top0 := sum_axis1 (getitem IM (slice_to _, strip))).
  set (bot0 := sum_axis1 (getitem IM (slice_from _, strip))).
  assert (Lt : length top0 = r2).
  { unfold top0. rewrite length_sum_axis1, nrows_getitem. simpl fst.
    rewrite slice_to_len by lia. reflexivity. }
  assert (Lb : length bot0 = r2).
  { unfold bot0. rewrite length_sum_axis1, nrows_getitem. simpl fst.
    rewrite slice_from_len by lia. unfold r2. lia. }
  split.
  - rewrite nth_take by (rewrite length_rev, Lt; exact Hk).
    rewrite length_rev, Lt. fold lo.
    rewrite rev_nth by (rewrite Lt; lia). rewrite Lt.
    unfold top0. rewrite nth_sum_axis1_getitem.
    + simpl fst. simpl snd. rewrite slice_to_lo. simpl Nat.add.
      f_equal. f_equal. f_equal. lia.
    + simpl fst. rewrite slice_to_len by lia. fold r2. lia.
  - rewrite nth_take by (rewrite Lb; exact Hk).
    rewrite Lb. fold lo.
    unfold bot0. rewrite nth_sum_axis1_getitem.
    + simpl fst. simpl snd. rewrite slice_from_lo by lia.
      f_equal. f_equal. f_equal.
      rewrite <- (Nat2Z.id (nrows IM / 2)). rewrite Nat2Z.inj_div. simpl (Z.of_nat 2).
      lia.
    + simpl fst. rewrite slice_from_len by lia.
      replace (Z.to_nat (Z.of_nat (nrows IM) - Z.of_nat (nrows IM) / 2)) with r2
        by (unfold r2; lia).
      lia.
Qed.

End ProfileContent.

(** ** [maintain_data] for any origin *)

Section MaintainDataOdd.
Context {T : Type} `{Pixel T} `{Numerics T}.

Lemma preprocess_sum (n order : nat) (c : option Q) (ao : axis_origin) :
  preprocess n order c = Some ao -> o ao + o_ ao = Z.of_nat n - 1.
Proof.
  unfold preprocess. destruct c as [q|]; [|discriminate].
  destruct (negb _); intros E; injection E as <-; simpl; lia.
Qed.

Lemma preprocess_some (n order : nat) (c : option Q) :
  c <> None -> preprocess n order c <> None.
Proof.
  unfold preprocess. destruct c as [q|]; [|congruence].
  intros _. destruct (negb _); discriminate.
Qed.

(** After the sub-pixel shift to a length of [n + 1], the cut and the
    adjusted origin of [maintain_data] agree: origin and complement add up
    to the length left, less one. *)
Lemma defraction_maintain_data (n : nat) (p : option axis_origin) :
  (forall ao, p = Some ao -> o ao + o_ ao = Z.of_nat n - 1) ->
  let c := defraction "maintain_data" p in
  (forall ao, snd c = Some ao ->
     o ao + o_ ao = Z.of_nat (slice_len (fst c) (S n)) - 1)
  /\ (p <> None -> snd c <> None).
Proof.
  intros Hp. destruct p as [ao|]; unfold defraction.
  - pose proof (Hp ao eq_refl) as S.
    change ("maintain_data" =? "valid_region")%string with false. cbv iota.
    destruct (negb (Qzero_bool (sub ao))); cbv zeta; cbn [fst snd];
      (split; [|discriminate]).
    + intros ao' E. injection E as <-. cbn [o o_]. rewrite slice_all_len. lia.
    + intros ao' E. injection E as <-.
      rewrite slice_from_len by lia. lia.
  - cbv zeta. cbn [fst snd]. split; [discriminate|congruence].
Qed.

Lemma odd_padded (m : nat) (act : option axis_origin) :
  (forall ao, act = Some ao -> o ao + o_ ao = Z.of_nat m - 1) ->
  act <> None ->
  Nat.odd (Z.to_nat (fst (maintain_data_pad act)) + m
           + Z.to_nat (snd (maintain_data_pad act))) = true.
Proof.
  intros Hs Hn. destruct act as [ao|]; [|congruence].
  pose proof (Hs ao eq_refl) as S. simpl. apply odd_of_Z.
  set (d := Z.max (o ao) (o_ ao)).
  replace (Z.of_nat (Z.to_nat (d - o ao) + m + Z.to_nat (d - o_ ao)))
    with (1 + d * 2) by (unfold d; lia).
  rewrite Z.mod_add by lia. reflexivity.
Qed.

Lemma active_some (in_axes : bool) (p : option axis_origin) :
  in_axes = true -> p <> None -> active in_axes p <> None.
Proof. intros ->. auto. Qed.

Lemma active_sum (in_axes : bool) (p : option axis_origin) (m : nat) :
  (forall ao, p = Some ao -> o ao + o_ ao = Z.of_nat m - 1) ->
  forall ao, active in_axes p = Some ao -> o ao + o_ ao = Z.of_nat m - 1.
Proof. destruct in_axes; simpl; [auto|discriminate]. Qed.

(** X12. With [maintain_data], for every origin, whole or fractional, inside the
    image or not, and every order, the output has an odd number of rows
    (columns) whenever the row (column) axis is active. *)
Theorem set_center_maintain_data_odd (data : image T)
    (origin : option Q * option Q) (axes : bool * bool) (order : nat) :
  shift_keeps_shape -> wf data = true ->
  exists out,
    set_center data origin "maintain_data" axes order = Ok out
    /\ (fst axes = true -> fst origin <> None ->
        Nat.odd (nrows (val out)) = true)
    /\ (snd axes = true -> snd origin <> None ->
        Nat.odd (ncols (val out)) = true).
Proof.
  intros Hs Hw. unfold set_center. simpl String.eqb. cbv iota.
  set (p0 := preprocess (nrows data) order (fst origin)).
  set (p1 := preprocess (ncols data) order (snd origin)).
  set (order' := effective_order p0 p1 order).
  assert (S0 : forall ao, p0 = Some ao -> o ao + o_ ao = Z.of_nat (nrows data) - 1)
    by (intros ao; apply preprocess_sum).
  assert (S1 : forall ao, p1 = Some ao -> o ao + o_ ao = Z.of_nat (ncols data) - 1)
    by (intros ao; apply preprocess_sum).
  destruct (negb (order' =? 0)%nat).
  - destruct (shifted_shape data (- subpixel_of p0, - subpixel_of p1)%Q order'
                Hs Hw) as [N0 N1].
    cbv zeta in N0, N1.
    destruct (defraction_maintain_data (nrows data) p0 S0) as [D0 K0].
    destruct (defraction_maintain_data (ncols data) p1 S1) as [D1 K1].
    cbv zeta in D0, K0, D1, K1.
    set (c0 := defraction "maintain_data" p0) in *.
    set (c1 := defraction "maintain_data" p1) in *.
    match goal with
    | |- context [np_pad ?a (maintain_data_pad ?x, maintain_data_pad ?y)] =>
        destruct (np_pad_maintain_data a x y) as [out E]
    end.
    rewrite E. simpl bind. eexists. split; [reflexivity|]. simpl val.
    apply np_pad_shape in E. destruct E as [E0 E1].
    simpl fst in E0, E1. simpl snd in E0, E1. simpl val in E0, E1.
    rewrite nrows_getitem in E0. rewrite ncols_getitem in E1.
    simpl fst in E0. simpl snd in E1. rewrite N0 in E0. rewrite N1 in E1.
    split.
    + intros A O. rewrite E0. apply odd_padded.
      * apply active_sum. exact D0.
      * apply active_some; [exact A|]. apply K0. apply preprocess_some. exact O.
    + intros A O. rewrite E1. apply odd_padded.
      * apply active_sum. exact D1.
      * apply active_some; [exact A|]. apply K1. apply preprocess_some. exact O.
  - match goal with
    | |- context [np_pad ?a (maintain_data_pad ?x, maintain_data_pad ?y)] =>
        destruct (np_pad_maintain_data a x y) as [out E]
    end.
    rewrite E. simpl bind. eexists. split; [reflexivity|]. simpl val.
    apply np_pad_shape in E. destruct E as [E0 E1].
    simpl fst in E0, E1. simpl snd in E0, E1. simpl val in E0, E1.
    split.
    + intros A O. rewrite E0. apply odd_padded.
      * apply active_sum. exact S0.
      * apply active_some; [exact A|]. apply preprocess_some. exact O.
    + intros A O. rewrite E1. apply odd_padded.
      * apply active_sum. exact S1.
      * apply active_some; [exact A|]. apply preprocess_some. exact O.
Qed.

End MaintainDataOdd.

(** ** Centering an image that is already centred *)

Section Recentering.
Context {T : Type} `{Pixel T} `{Numerics T}.

Lemma odd_positive (n : nat) : Nat.odd n = true -> (0 < n)%nat.
Proof. destruct n; [discriminate|lia]. Qed.

Lemma odd_not_even (n : nat) : Nat.odd n = true -> Nat.even n = false.
Proof.
  intros O. rewrite <- Nat.negb_even in O.
  destruct (Nat.even n); [discriminate|reflexivity].
Qed.

Lemma odd_to_nat (d : Z) : 0 <= d -> Nat.odd (Z.to_nat (2 * d + 1)) = true.
Proof.
  intros Hd. apply odd_of_Z.
  replace (Z.of_nat (Z.to_nat (2 * d + 1))) with (1 + d * 2) by lia.
  rewrite Z.mod_add by lia. reflexivity.
Qed.

(** On an image with odd sides, centering at the centre index returns the
    image, under each policy. *)
Lemma recentre_noop (data : image T) (crop : string) (axes : bool * bool)
    (order : nat) :
  wf data = true ->
  Nat.odd (nrows data) = true -> Nat.odd (ncols data) = true ->
  crop_policy crop ->
  set_center data
    (whole_origin (Some (fst (center_of data)), Some (snd (center_of data))))
    crop axes order
  = Ok (fresh data).
Proof.
  intros Hw O0 O1 [->|[->| ->]].
  - rewrite maintain_size_whole. cbv zeta. rewrite whole_pixel_noop.
    + reflexivity.
    + exact Hw.
    + rewrite whole_delta_whole. unfold center_of. simpl fst.
      destruct (fst axes); simpl; [|reflexivity].
      rewrite centre_index_absolute. lia.
    + rewrite whole_delta_whole. unfold center_of. simpl snd. simpl fst.
      destruct (snd axes); simpl; [|reflexivity].
      rewrite centre_index_absolute. lia.
  - rewrite valid_region_whole. unfold center_of. simpl fst. simpl snd.
    destruct (crop_at_centre (nrows data) (fst axes) (odd_positive _ O0))
      as [I0 [C0 L0]].
    destruct (crop_at_centre (ncols data) (snd axes) (odd_positive _ O1))
      as [I1 [C1 L1]].
    destruct (symmetric_slice_inside _ _ I0) as [SL0 SN0].
    destruct (symmetric_slice_inside _ _ I1) as [SL1 SN1].
    unfold odd_trim in L0, L1.
    rewrite (odd_not_even _ O0) in L0. rewrite (odd_not_even _ O1) in L1.
    rewrite getitem_identity; try assumption; simpl fst; simpl snd.
    + reflexivity.
    + congruence.
    + rewrite SN0, L0. destruct (fst axes); reflexivity.
    + congruence.
    + rewrite SN1, L1. destruct (snd axes); reflexivity.
  - rewrite maintain_data_whole. unfold center_of. simpl fst. simpl snd.
    destruct (pad_at_centre (nrows data) (fst axes)) as [P0 A0].
    destruct (pad_at_centre (ncols data) (snd axes)) as [P1 A1].
    cbv zeta in P0, A0, P1, A1. rewrite P0, A0, P1, A1.
    unfold even_pad. rewrite (odd_not_even _ O0), (odd_not_even _ O1).
    replace (if fst axes then 0%nat else 0%nat) with 0%nat
      by (destruct (fst axes); reflexivity).
    replace (if snd axes then 0%nat else 0%nat) with 0%nat
      by (destruct (snd axes); reflexivity).
    rewrite pad_zeros_none by exact Hw. reflexivity.
Qed.

(** X11. Centering is idempotent. Once an image has been centred on a whole-pixel
    origin along both axes with [maintain_data], or with [valid_region] for
    an origin inside the image, centering the result on its own centre index
    changes nothing, under any policy, axis set and order. *)
Theorem set_center_idempotent (data : image T) (z0 z1 : Z) (crop : string)
    (order : nat) :
  wf data = true ->
  (crop = "valid_region"%string
   /\ inside (nrows data) (Some z0) /\ inside (ncols data) (Some z1))
  \/ crop = "maintain_data"%string ->
  exists out,
    set_center data (whole_origin (Some z0, Some z1)) crop (true, true) order
    = Ok out
    /\ forall crop' axes' order', crop_policy crop' ->
         set_center (val out)
           (whole_origin (Some (fst (center_of (val out))),
                          Some (snd (center_of (val out)))))
           crop' axes' order'
         = Ok (fresh (val out)).
Proof.
  intros Hw [[-> [I0 I1]]| ->].
  - rewrite valid_region_whole. cbn [fst snd whole_active].
    eexists. split; [reflexivity|]. cbn [val fresh].
    destruct (symmetric_slice_inside _ _ I0) as [SL0 SN0].
    destruct (symmetric_slice_inside _ _ I1) as [SL1 SN1].
    destruct (cropped_axis _ _ I0) as [D0 [E0 _]].
    destruct (cropped_axis _ _ I1) as [D1 [E1 _]].
    intros crop' axes' order' Hc. apply recentre_noop.
    + apply wf_getitem. exact Hw.
    + rewrite nrows_getitem. cbn [fst snd]. rewrite SN0.
      unfold cropped_length. apply odd_to_nat. exact D0.
    + rewrite ncols_getitem. cbn [fst snd]. rewrite SN1.
      unfold cropped_length. apply odd_to_nat. exact D1.
    + exact Hc.
  - rewrite maintain_data_whole. cbn [fst snd whole_active].
    eexists. split; [reflexivity|]. cbn [val fresh].
    destruct (padded_axis (nrows data) z0) as [D0 _].
    destruct (padded_axis (ncols data) z1) as [D1 _].
    pose proof (shape_pad_zeros (pad_offset (nrows data) (Some z0))
                  (pad_after (nrows data) (Some z0))
                  (pad_offset (ncols data) (Some z1))
                  (pad_after (ncols data) (Some z1)) data) as Hs.
    rewrite !padded_length_sum in Hs.
    set (out := pad_zeros _ _ _ _ data) in *.
    assert (N0 : nrows out = padded_length (nrows data) (Some z0))
      by exact (f_equal fst Hs).
    assert (N1 : ncols out = padded_length (ncols data) (Some z1))
      by exact (f_equal snd Hs).
    intros crop' axes' order' Hc. apply recentre_noop.
    + apply wf_pad_zeros. exact Hw.
    + rewrite N0. unfold padded_length. apply odd_to_nat. exact D0.
    + rewrite N1. unfold padded_length. apply odd_to_nat. exact D1.
    + exact Hc.
Qed.

End Recentering.

(** ** Instances of the further statements *)

Lemma set_center_at_center_of_is_identity_witness :
  exists out,
    set_center image2x3 (whole_origin (Some 0, Some 1)) "maintain_size"
      (true, true) 3 = Ok out
    /\ val out = image2x3.
Proof.
  apply (set_center_at_center_of_is_identity image2x3 (true, true) 3).
  reflexivity.
Defined.

Lemma set_center_valid_region_at_center_of_witness :
  exists out,
    set_center image2x3 (whole_origin (Some 0, Some 1)) "valid_region"
      (true, true) 3 = Ok out
    /\ shape (val out) = (1%nat, 3%nat)
    /\ forall i j, (i < nrows (val out))%nat -> (j < ncols (val out))%nat ->
         px (val out) i j = px image2x3 i j.
Proof.
  apply (set_center_valid_region_at_center_of image2x3 (true, true) 3).
  - reflexivity.
  - unfold nrows; simpl; lia.
  - simpl; lia.
Defined.

Lemma set_center_maintain_data_at_center_of_witness :
  exists out,
    set_center image2x3 (whole_origin (Some 0, Some 1)) "maintain_data"
      (true, true) 3 = Ok out
    /\ shape (val out) = (3%nat, 3%nat)
    /\ (forall i j, (i < 2)%nat -> (j < 3)%nat ->
          px (val out) (1 + i) (0 + j) = px image2x3 i j)
    /\ (forall i j, (i < 1 \/ j < 0)%nat -> px (val out) i j = 0).
Proof.
  exact (set_center_maintain_data_at_center_of image2x3 (true, true) 3 eq_refl).
Defined.

Lemma set_center_image_center_shift_witness :
  exists out,
    set_center image2x3 (Some 1%Q, Some 1%Q) "maintain_size" (true, true) 3
    = Ok out
    /\ shape (val out) = shape image2x3
    /\ forall i j, (i < 2)%nat -> (j < 3)%nat ->
         px (val out) i j = translated image2x3 (-1) 0 i j.
Proof.
  apply (set_center_image_center_shift image2x3 (true, true) 3).
  - reflexivity.
  - unfold nrows; simpl; lia.
  - simpl; lia.
Defined.

Lemma center_image_odd_size_witness :
  Nat.odd (ncols (Image [[4; 5; 6]; [0; 0; 0]] 3)) = true.
Proof.
  assert (E : center_image image2x3 (MethodName "image_center") true false
                (true, true) "maintain_size" default_kwargs
              = Ok (NdArray (Image [[4; 5; 6]; [0; 0; 0]] 3) FreshBuffer))
    by (vm_compute; reflexivity).
  assert (R : (0 < nrows image2x3)%nat) by (unfold nrows; simpl; lia).
  assert (C : (0 < ncols image2x3)%nat) by (simpl; lia).
  apply (center_image_odd_size image2x3 (MethodName "image_center") false
           (true, true) default_kwargs _ Z_shift_keeps_shape eq_refl R C E).
Defined.

Lemma axis_slices_profile_lengths_witness :
  length (top_profile image5x3 (0, -1) 2) = 2%nat
  /\ length (bottom_profile image5x3 (0, -1) 2) = 2%nat
  /\ length (left_profile image5x3 (0, -1) 2) = 1%nat
  /\ length (right_profile image5x3 (0, -1) 2) = 1%nat.
Proof.
  apply (axis_slices_profile_lengths image5x3 (0, -1) 2). reflexivity.
Defined.

Lemma axis_slices_vertical_profiles_witness :
  nth 1 (top_profile image5x3 (0, -1) 2) 0 = strip_sum image5x3 2 1
  /\ nth 1 (bottom_profile image5x3 (0, -1) 2) 0 = strip_sum image5x3 2 3.
Proof.
  apply (axis_slices_vertical_profiles image5x3 (0, -1) 2 1).
  vm_compute. lia.
Defined.

Lemma set_center_maintain_data_odd_witness :
  exists out,
    set_center image2x3 (Some (1 # 3)%Q, Some (-7 # 2)%Q) "maintain_data"
      (true, true) 3 = Ok out
    /\ (true = true -> Some (1 # 3)%Q <> None -> Nat.odd (nrows (val out)) = true)
    /\ (true = true -> Some (-7 # 2)%Q <> None -> Nat.odd (ncols (val out)) = true).
Proof.
  apply (set_center_maintain_data_odd image2x3 (Some (1 # 3)%Q, Some (-7 # 2)%Q)
           (true, true) 3 Z_shift_keeps_shape).
  reflexivity.
Defined.

Lemma set_center_idempotent_witness :
  exists out,
    set_center image5x3 (whole_origin (Some 1, Some (-1))) "valid_region"
      (true, true) 3 = Ok out
    /\ forall crop' axes' order', crop_policy crop' ->
         set_center (val out)
           (whole_origin (Some (fst (center_of (val out))),
                          Some (snd (center_of (val out)))))
           crop' axes' order'
         = Ok (fresh (val out)).
Proof.
  apply (set_center_idempotent image5x3 1 (-1) "valid_region" 3).
  - reflexivity.
  - left. split; [reflexivity|].
    split; unfold nrows, inside, absolute; simpl; lia.
Defined.

(** ** No active axis *)

Section NoActiveAxis.
Context {T : Type} `{Pixel T} `{Numerics T}.

(** X6. When no axis is active (each axis is left out of [axes] or has a [None]
    coordinate) and the coordinates given are whole pixels, [set_center]
    returns a copy of its input under each of the three policies. *)
Theorem set_center_no_active_axis (data : image T) (zo : option Z * option Z)
    (crop : string) (axes : bool * bool) (order : nat) :
  wf data = true -> crop_policy crop ->
  whole_active (fst axes) (fst zo) = None ->
  whole_active (snd axes) (snd zo) = None ->
  set_center data (whole_origin zo) crop axes order = Ok (fresh data).
Proof.
  intros Hw [->|[->| ->]] A0 A1.
  - rewrite maintain_size_whole. cbv zeta. rewrite whole_pixel_noop.
    + reflexivity.
    + exact Hw.
    + rewrite whole_delta_whole, A0. reflexivity.
    + rewrite whole_delta_whole, A1. reflexivity.
  - rewrite valid_region_whole, A0, A1. simpl symmetric_slice.
    rewrite getitem_all by exact Hw. reflexivity.
  - rewrite maintain_data_whole, A0, A1. simpl pad_offset. simpl pad_after.
    rewrite pad_zeros_none by exact Hw. reflexivity.
Qed.

End NoActiveAxis.

Lemma set_center_no_active_axis_witness :
  set_center image3x3 (whole_origin (Some 2, None)) "valid_region" (false, true) 3
  = Ok (fresh image3x3).
Proof.
  apply (set_center_no_active_axis image3x3 (Some 2, None) "valid_region"
           (false, true) 3); try reflexivity.
  right. left. reflexivity.
Defined.

(** ** [find_origin_by_convolution] on a single bright pixel *)


Lemma zsum_app (l m : list Z) : zsum (l ++ m) = zsum l + zsum m.
Proof. induction l as [|x l IH]; simpl; lia. Qed.



















(** ** [valid_region] for any origin in the image *)

Lemma py_round_upper (q : Q) (n : Z) :
  Qnum q <= n * Zpos (Qden q) -> py_round q <= n.
Proof.
  intros Hn. unfold py_round, Qfloor. destruct q as [a b].
  cbn [Qnum Qden] in *.
  pose proof (Z.div_mod a (Zpos b) ltac:(lia)) as Hd.
  pose proof (Z.mod_pos_bound a (Zpos b) ltac:(lia)) as Hm.
  assert (Hf : a / Zpos b <= n).
  { apply Z.div_le_upper_bound; lia. }
  set (f := a / Zpos b) in *.
  destruct (Z.eq_dec f n) as [E|E].
  - assert (a mod Zpos b = 0) by nia.
    replace (2 * (a - f * Zpos b)) with 0 by lia.
    change (0 ?= Z.pos b) with Lt. cbv iota. exact Hf.
  - destruct (_ ?= _); [destruct (Z.even _)| |]; lia.
Qed.

Lemma py_round_lower (q : Q) : 0 <= Qnum q -> 0 <= py_round q.
Proof.
  intros Hn. unfold py_round.
  assert (0 <= Qfloor q) by (destruct q as [a b]; simpl in *; apply Z.div_pos; lia).
  destruct (_ ?= _); [destruct (Z.even _)| |]; lia.
Qed.

Section ValidRegionOdd.
Context {T : Type} `{Pixel T} `{Numerics T}.

(** An origin coordinate in the image is preprocessed to a whole pixel of
    the image; when a fractional part is left there is a pixel after it. *)
Lemma preprocess_in_image (n order : nat) (q : Q) :
  in_image n (Some q) ->
  exists ao,
    preprocess n order (Some q) = Some ao
    /\ 0 <= o ao /\ 0 <= o_ ao /\ o ao + o_ ao = Z.of_nat n - 1
    /\ (Qzero_bool (sub ao) = false -> 1 <= o_ ao).
Proof.
  unfold in_image, preprocess.
  set (q' := if Qneg_bool q then (q + inject_Z (Z.of_nat n))%Q else q).
  intros [Hlo Hhi]. unfold Qle in Hlo, Hhi. simpl in Hlo, Hhi.
  rewrite Z.mul_1_r in Hlo, Hhi.
  destruct (negb (order =? 0)%nat); eexists; (split; [reflexivity|]); simpl.
  - assert (Hi : 0 <= py_int q' <= Z.of_nat n - 1).
    { unfold py_int. rewrite Z.quot_div_nonneg by lia. split.
      - apply Z.div_pos; lia.
      - apply Z.div_le_upper_bound; lia. }
    repeat split; try lia.
    intros Hf. unfold Qzero_bool in Hf. simpl in Hf.
    apply Z.eqb_neq in Hf.
    unfold py_int in *. rewrite Z.quot_div_nonneg in * by lia.
    pose proof (Z.div_mod (Qnum q') (Zpos (Qden q')) ltac:(lia)) as Hd.
    pose proof (Z.mod_pos_bound (Qnum q') (Zpos (Qden q')) ltac:(lia)) as Hm.
    assert (Qnum q' / Zpos (Qden q') <> Z.of_nat n - 1) by nia.
    lia.
  - pose proof (py_round_lower q' Hlo). pose proof (py_round_upper q' _ Hhi).
    repeat split; try lia. discriminate.
Qed.

(** After the sub-pixel shift to a length of [n + 1], the cut and the
    adjusted origin of [valid_region] agree. *)
Lemma defraction_valid_region (n : nat) (p : option axis_origin) :
  (forall ao, p = Some ao ->
     0 <= o ao /\ 0 <= o_ ao /\ o ao + o_ ao = Z.of_nat n - 1
     /\ (Qzero_bool (sub ao) = false -> 1 <= o_ ao)) ->
  let c := defraction "valid_region" p in
  (forall ao, snd c = Some ao ->
     0 <= o ao /\ 0 <= o_ ao
     /\ o ao + o_ ao = Z.of_nat (slice_len (fst c) (S n)) - 1)
  /\ (p <> None -> snd c <> None).
Proof.
  intros Hp. destruct p as [ao|]; unfold defraction.
  - destruct (Hp ao eq_refl) as [A [B [S F]]].
    change ("valid_region" =? "valid_region")%string with true. cbv iota.
    destruct (Qzero_bool (sub ao)) eqn:Z; cbn [negb]; cbv iota zeta; cbn [fst snd];
      (split; [|discriminate]).
    + intros ao' E. injection E as <-. rewrite slice_from_len by lia. lia.
    + specialize (F eq_refl). intros ao' E. injection E as <-. cbn [o o_].
      rewrite (slice_of_neg_len _ 1 1) by lia. lia.
  - cbv zeta. cbn [fst snd]. split; [discriminate|congruence].
Qed.

Lemma odd_cropped (m : nat) (act : option axis_origin) :
  (forall ao, act = Some ao ->
     0 <= o ao /\ 0 <= o_ ao /\ o ao + o_ ao = Z.of_nat m - 1) ->
  act <> None ->
  Nat.odd (slice_len (valid_region_slice act) m) = true.
Proof.
  intros Hs Hn. destruct act as [ao|]; [|congruence].
  destruct (Hs ao eq_refl) as [A [B S]]. simpl valid_region_slice.
  set (d := Z.min (o ao) (o_ ao)).
  rewrite slice_of_len by (unfold d; lia).
  replace (o ao + d + 1 - (o ao - d)) with (2 * d + 1) by lia.
  apply odd_to_nat. unfold d. lia.
Qed.

Lemma active_bounds (in_axes : bool) (p : option axis_origin) (m : nat) :
  (forall ao, p = Some ao ->
     0 <= o ao /\ 0 <= o_ ao /\ o ao + o_ ao = Z.of_nat m - 1) ->
  forall ao, active in_axes p = Some ao ->
    0 <= o ao /\ 0 <= o_ ao /\ o ao + o_ ao = Z.of_nat m - 1.
Proof. destruct in_axes; simpl; [auto|discriminate]. Qed.

Lemma valid_region_odd_rows (data : image T)
    (origin : option Q * option Q) (axes : bool * bool) (order : nat) :
  shift_keeps_shape -> wf data = true ->
  fst axes = true -> fst origin <> None ->
  in_image (nrows data) (fst origin) ->
  exists out,
    set_center data origin "valid_region" axes order = Ok out
    /\ Nat.odd (nrows (val out)) = true.
Proof.
  intros Hs Hw A O I. unfold set_center. simpl String.eqb. cbv iota.
  destruct (fst origin) as [q|] eqn:Eq; [|congruence].
  destruct (preprocess_in_image (nrows data) order q I) as [ao [Ep P]].
  rewrite Ep.
  set (p1 := preprocess (ncols data) order (snd origin)).
  set (order' := effective_order (Some ao) p1 order).
  assert (S0 : forall ao', Some ao = Some ao' ->
            0 <= o ao' /\ 0 <= o_ ao' /\ o ao' + o_ ao' = Z.of_nat (nrows data) - 1
            /\ (Qzero_bool (sub ao') = false -> 1 <= o_ ao'))
    by (intros ao' E; injection E as <-; exact P).
  rewrite A.
  destruct (negb (order' =? 0)%nat).
  - destruct (shifted_shape data (- subpixel_of (Some ao), - subpixel_of p1)%Q
                order' Hs Hw) as [N0 _].
    cbv zeta in N0.
    destruct (defraction_valid_region (nrows data) (Some ao) S0) as [D0 K0].
    cbv zeta in D0, K0.
    set (c0 := defraction "valid_region" (Some ao)) in *.
    cbv beta iota zeta.
    eexists. split; [reflexivity|]. cbn [val copy view fresh].
    rewrite nrows_getitem. cbn [fst snd]. rewrite nrows_getitem. cbn [fst snd].
    rewrite N0. apply odd_cropped.
    + apply active_bounds. exact D0.
    + cbn [active]. apply K0. discriminate.
  - cbv beta iota zeta.
    eexists. split; [reflexivity|]. cbn [val copy view input_array fresh].
    rewrite nrows_getitem. cbn [fst snd]. apply odd_cropped.
    + cbn [active]. intros ao' E. destruct (S0 ao' E) as [X [Y [Z _]]]. auto.
    + cbn [active]. discriminate.
Qed.

Lemma valid_region_odd_cols (data : image T)
    (origin : option Q * option Q) (axes : bool * bool) (order : nat) :
  shift_keeps_shape -> wf data = true ->
  snd axes = true -> snd origin <> None ->
  in_image (ncols data) (snd origin) ->
  exists out,
    set_center data origin "valid_region" axes order = Ok out
    /\ Nat.odd (ncols (val out)) = true.
Proof.
  intros Hs Hw A O I. unfold set_center. simpl String.eqb. cbv iota.
  destruct (snd origin) as [q|] eqn:Eq; [|congruence].
  destruct (preprocess_in_image (ncols data) order q I) as [ao [Ep P]].
  rewrite Ep.
  set (p0 := preprocess (nrows data) order (fst origin)).
  set (order' := effective_order p0 (Some ao) order).
  assert (S1 : forall ao', Some ao = Some ao' ->
            0 <= o ao' /\ 0 <= o_ ao' /\ o ao' + o_ ao' = Z.of_nat (ncols data) - 1
            /\ (Qzero_bool (sub ao') = false -> 1 <= o_ ao'))
    by (intros ao' E; injection E as <-; exact P).
  rewrite A.
  destruct (negb (order' =? 0)%nat).
  - destruct (shifted_shape data (- subpixel_of p0, - subpixel_of (Some ao))%Q
                order' Hs Hw) as [_ N1].
    cbv zeta in N1.
    destruct (defraction_valid_region (ncols data) (Some ao) S1) as [D1 K1].
    cbv zeta in D1, K1.
    set (c1 := defraction "valid_region" (Some ao)) in *.
    cbv beta iota zeta.
    eexists. split; [reflexivity|]. cbn [val copy view fresh].
    rewrite ncols_getitem. cbn [fst snd]. rewrite ncols_getitem. cbn [fst snd].
    rewrite N1. apply odd_cropped.
    + apply active_bounds. exact D1.
    + cbn [active]. apply K1. discriminate.
  - cbv beta iota zeta.
    eexists. split; [reflexivity|]. cbn [val copy view input_array fresh].
    rewrite ncols_getitem. cbn [fst snd]. apply odd_cropped.
    + cbn [active]. intros ao' E. destruct (S1 ao' E) as [X [Y [Z _]]]. auto.
    + cbn [active]. discriminate.
Qed.

(** X13. With [valid_region], for every order and every origin, whole or
    fractional, the output has an odd number of rows (columns) whenever the
    row (column) axis is active and the origin lies in the image on it. *)
Theorem set_center_valid_region_odd (data : image T)
    (origin : option Q * option Q) (axes : bool * bool) (order : nat) :
  shift_keeps_shape -> wf data = true ->
  exists out,
    set_center data origin "valid_region" axes order = Ok out
    /\ (fst axes = true -> fst origin <> None ->
        in_image (nrows data) (fst origin) ->
        Nat.odd (nrows (val out)) = true)
    /\ (snd axes = true -> snd origin <> None ->
        in_image (ncols data) (snd origin) ->
        Nat.odd (ncols (val out)) = true).
Proof.
  intros Hs Hw.
  assert (E : exists out, set_center data origin "valid_region" axes order = Ok out).
  { unfold set_center. simpl String.eqb. cbv iota.
    destruct (negb _); eexists; reflexivity. }
  destruct E as [out E]. exists out. split; [exact E|]. split.
  - intros A O I.
    destruct (valid_region_odd_rows data origin axes order Hs Hw A O I)
      as [out' [E' R]].
    rewrite E in E'. injection E' as <-. exact R.
  - intros A O I.
    destruct (valid_region_odd_cols data origin axes order Hs Hw A O I)
      as [out' [E' R]].
    rewrite E in E'. injection E' as <-. exact R.
Qed.

End ValidRegionOdd.

Lemma set_center_valid_region_odd_witness :
  exists out,
    set_center image5x3 (Some (3 # 2)%Q, Some (-1 # 1)%Q) "valid_region"
      (true, true) 3 = Ok out
    /\ Nat.odd (nrows (val out)) = true.
Proof.
  destruct (set_center_valid_region_odd image5x3 (Some (3 # 2)%Q, Some (-1 # 1)%Q)
              (true, true) 3 Z_shift_keeps_shape eq_refl) as [out [E [R _]]].
  exists out. split; [exact E|]. apply R.
  - reflexivity.
  - discriminate.
  - unfold in_image, nrows. simpl. unfold Qle. simpl. lia.
Defined.

(** ** The block kept by the squaring step *)

Section SquaringBlock.
Context {T : Type} `{Pixel T}.

(** X15. Without [odd_size], the squaring step of [center_image] keeps a centred
    block of the image: when there are more rows than columns, the rows from
    [(rows - cols) // 2] on, as many as there are columns; when there are
    more columns than rows and the difference is even, the columns from
    [(cols - rows) // 2] on, as many as there are rows. *)
Theorem trim_image_centred_block (IM : image T) :
  wf IM = true ->
  let out := trim_image IM false true in
  let r := nrows IM in
  let c := ncols IM in
  ((c < r)%nat ->
   shape out = (c, c)
   /\ forall i j, (i < c)%nat -> (j < c)%nat ->
        px out i j = px IM ((r - c) / 2 + i) j)
  /\ ((r < c)%nat -> Nat.even (c - r) = true ->
      shape out = (r, r)
      /\ forall i j, (i < r)%nat -> (j < r)%nat ->
           px out i j = px IM i ((c - r) / 2 + j)).
Proof.
  intros Hw out r c. unfold out, trim_image. simpl andb. cbv iota zeta.
  fold r c. split.
  - intros Hlt.
    destruct (Z.eqb_spec (Z.of_nat r) (Z.of_nat c)); [lia|]. simpl negb. cbv iota.
    destruct (Z.gtb_spec (Z.of_nat r) (Z.of_nat c)); [|lia].
    set (diff := Z.of_nat r - Z.of_nat c).
    pose proof (Z.div_mod diff 2 ltac:(lia)) as Hd.
    pose proof (even_or_odd_mod diff) as Hm.
    assert (Hh : Z.of_nat ((r - c) / 2) = diff / 2).
    { rewrite Nat2Z.inj_div. unfold diff. simpl (Z.of_nat 2). f_equal. lia. }
    set (IM2 := if diff / 2 >? 0
                then getitem IM (slice_of (diff / 2) (- (diff / 2)), slice_all)
                else IM).
    assert (W2 : wf IM2 = true)
      by (unfold IM2; destruct (_ >? _); [apply wf_getitem|]; exact Hw).
    assert (R2 : Z.of_nat (nrows IM2) = Z.of_nat r - 2 * (diff / 2)
                 /\ ncols IM2 = c
                 /\ forall i j, (Z.of_nat i < Z.of_nat r - 2 * (diff / 2)) ->
                      (j < c)%nat -> px IM2 i j = px IM ((r - c) / 2 + i) j).
    { unfold IM2. destruct (Z.gtb_spec (diff / 2) 0) as [P|P].
      - rewrite nrows_getitem, ncols_getitem. simpl fst. simpl snd.
        rewrite slice_all_len. fold r c.
        rewrite slice_of_neg_len by (unfold diff in *; lia).
        split; [unfold diff in *; lia|]. split; [reflexivity|].
        intros i j Hi Hj. rewrite px_getitem.
        + simpl fst. simpl snd. fold r c.
          rewrite slice_of_lo by (unfold diff in *; lia).
          rewrite slice_all_lo. f_equal. lia.
        + exact Hw.
        + simpl fst. fold r.
          rewrite slice_of_neg_len by (unfold diff in *; lia).
          unfold diff in *. lia.
        + simpl snd. rewrite slice_all_len. exact Hj.
      - split; [unfold diff in *; lia|]. split; [reflexivity|].
        intros i j Hi Hj. f_equal. lia. }
    destruct R2 as [R2 [C2 P2]].
    destruct (Z.eqb_spec (diff mod 2) 0) as [M|M]; simpl negb; cbv iota.
    + split.
      * unfold shape. f_equal; [unfold diff in *; lia|exact C2].
      * intros i j Hi Hj. apply P2; [unfold diff in *; lia|exact Hj].
    + split.
      * rewrite shape_getitem. simpl fst. simpl snd.
        rewrite slice_all_len, C2.
        rewrite (slice_to_neg_len _ 1) by (unfold diff in *; lia).
        f_equal. unfold diff in *. lia.
      * intros i j Hi Hj. rewrite px_getitem.
        -- simpl fst. simpl snd. rewrite slice_to_lo, slice_all_lo. simpl Nat.add.
           apply P2; [unfold diff in *; lia|exact Hj].
        -- exact W2.
        -- simpl fst. rewrite (slice_to_neg_len _ 1) by (unfold diff in *; lia).
           unfold diff in *. lia.
        -- simpl snd. rewrite slice_all_len, C2. exact Hj.
  - intros Hlt He.
    destruct (Z.eqb_spec (Z.of_nat r) (Z.of_nat c)); [lia|]. simpl negb. cbv iota.
    destruct (Z.gtb_spec (Z.of_nat r) (Z.of_nat c)); [lia|].
    apply Nat.even_spec in He. destruct He as [k Hk].
    assert (Hx : (Z.of_nat c - Z.of_nat r) / 2 = Z.of_nat k).
    { replace (Z.of_nat c - Z.of_nat r) with (Z.of_nat k * 2) by lia.
      apply Z.div_mul. lia. }
    assert (Hh : ((c - r) / 2)%nat = k).
    { rewrite Hk. rewrite Nat.mul_comm. apply Nat.div_mul. lia. }
    rewrite Hx, Hh. split.
    + rewrite shape_getitem. simpl fst. simpl snd. fold r c.
      rewrite slice_all_len. rewrite slice_of_neg_len by lia. f_equal. lia.
    + intros i j Hi Hj. rewrite px_getitem.
      * simpl fst. simpl snd. fold r c.
        rewrite slice_all_lo. rewrite slice_of_lo by lia. f_equal. lia.
      * exact Hw.
      * simpl fst. rewrite slice_all_len. exact Hi.
      * simpl snd. fold c. rewrite slice_of_neg_len by lia. lia.
Qed.

End SquaringBlock.

Section NoneAxis.
Context {T : Type} `{Pixel T} `{Numerics T}.

(** X5. An axis whose origin coordinate is [None] keeps its length, under every
    crop option and every order, whatever the coordinate of the other axis
    (whole or fractional) and the axis set. *)
Theorem set_center_none_axis_keeps_length (data : image T)
    (origin : option Q * option Q) (crop : string) (axes : bool * bool)
    (order : nat) (out : ndarray T) :
  shift_keeps_shape -> wf data = true ->
  set_center data origin crop axes order = Ok out ->
  (fst origin = None -> nrows (val out) = nrows data)
  /\ (snd origin = None -> ncols (val out) = ncols data).
Proof.
  intros Hs Hw E. destruct origin as [c0 c1]. simpl fst. simpl snd. split.
  - intros ->. exact (none_axis_keeps_nrows data c1 crop axes order out Hs Hw E).
  - intros ->. exact (none_axis_keeps_ncols data c0 crop axes order out Hs Hw E).
Qed.

End NoneAxis.

Lemma trim_image_centred_block_witness :
  shape (trim_image image5x3 false true) = (3%nat, 3%nat)
  /\ forall i j, (i < 3)%nat -> (j < 3)%nat ->
       px (trim_image image5x3 false true) i j = px image5x3 (1 + i) j.
Proof.
  apply (trim_image_centred_block image5x3 eq_refl). unfold nrows; simpl; lia.
Defined.

Lemma set_center_none_axis_keeps_length_witness :
  ncols (Image [[1; 2; 3]; [4; 5; 6]; [7; 8; 9]] 3) = ncols image5x3.
Proof.
  assert (E : set_center image5x3 (Some (3 # 2)%Q, None) "valid_region"
                (true, true) 3
              = Ok (NdArray (Image [[1; 2; 3]; [4; 5; 6]; [7; 8; 9]] 3)
                            FreshBuffer))
    by (vm_compute; reflexivity).
  apply (set_center_none_axis_keeps_length image5x3 (Some (3 # 2)%Q, None)
           "valid_region" (true, true) 3 _ Z_shift_keeps_shape eq_refl E).
  reflexivity.
Defined.
